(** * Sum of N elements by parallel tree reduction (sumOfNElements.cpp)

    A shallow embedding of the SYCL program: the kernel lambda handed to
    [parallel_for], the barrier-separated phases of one work-group, one
    launch over all work-groups, and the host code of [main] around it.

    Modelling choices.
    - [int] values are mathematical integers kept in the 32-bit signed
      range by [int_wrap]; the [+] of the kernel is [int_add].  (C++
      leaves signed overflow undefined; the two's-complement wrap-around
      of the targets is what is modelled.)
    - Ids and sizes ([local_id], [global_id], [iterationCount],
      [work_group_size], ...) are natural numbers.  The source holds the
      ids in [int] and the sizes in [size_t]; every run covered below
      keeps them far below [2^31].
    - An accessor subscript outside the accessed range has no defined
      behaviour in C++; here it stops the run with an error that records
      the offending index.
    - Work-items of one group run in lock step between barriers: a phase
      is run for lanes [0 .. G-1] in turn, then the next phase starts.
    - Work-groups are not ordered by SYCL.  A launch is run for a given
      order of the group ids; the in-order schedule is [in_order]. *)

From Stdlib Require Import ZArith Lia List.
From stdpp Require Import base list numbers.

Local Open Scope Z_scope.

(** ** 32-bit signed integers *)

Definition int_wrap (z : Z) : Z := (z + 2 ^ 31) mod 2 ^ 32 - 2 ^ 31.

Definition int_add (a b : Z) : Z := int_wrap (a + b).

Definition is_int (z : Z) : Prop := - 2 ^ 31 <= z < 2 ^ 31.

(** Sum of a list of integers, before any wrap-around. *)
Definition sumZ (l : list Z) : Z := foldr Z.add 0 l.

Local Close Scope Z_scope.

(** ** Device state, errors and the kernel monad *)

(** One access to the global buffer by the work-item with global id [g]. *)
Inductive event : Type :=
| Load (g idx : nat)
| Store (g idx : nat).

Inductive error : Type :=
| GlobalOutOfRange (idx : nat)
| LocalOutOfRange (idx : nat)
| OutOfFuel.

Inductive outcome (A : Type) : Type :=
| Ok (a : A)
| Err (e : error).

Arguments Ok {A} a.
Arguments Err {A} e.

(** [global_mem] is the accessor on [input_buf]; [local_mem] is the local
    accessor of the group that is running; [trace] lists the accesses to
    the global buffer, oldest first. *)
Record device : Type := Device {
  global_mem : list Z;
  local_mem : list Z;
  trace : list event
}.

Definition kern (A : Type) : Type := device -> outcome (A * device).

Definition kret {A} (a : A) : kern A := fun d => Ok (a, d).

Definition kbind {A B} (m : kern A) (f : A -> kern B) : kern B :=
  fun d => match m d with
           | Ok (a, d') => f a d'
           | Err e => Err e
           end.

Declare Scope kern_scope.
Delimit Scope kern_scope with kern.
Bind Scope kern_scope with kern.

Notation "'let*' x ':=' m 'in' k" := (kbind m (fun x => k))
  (at level 10, x name, m at level 100, k at level 200) : kern_scope.
Notation "m ;; k" := (kbind m (fun _ => k))
  (at level 100, k at level 200, right associativity) : kern_scope.

Local Open Scope kern_scope.

(** [global_mem[idx]] read by work-item [g]. *)
Definition gread (g idx : nat) : kern Z := fun d =>
  match global_mem d !! idx with
  | Some v => Ok (v, Device (global_mem d) (local_mem d) (trace d ++ [Load g idx]))
  | None => Err (GlobalOutOfRange idx)
  end.

(** [global_mem[idx] = v] by work-item [g]. *)
Definition gwrite (g idx : nat) (v : Z) : kern unit := fun d =>
  if idx <? length (global_mem d)
  then Ok (tt, Device (<[idx := v]> (global_mem d)) (local_mem d)
                      (trace d ++ [Store g idx]))
  else Err (GlobalOutOfRange idx).

(** [local_mem[idx]] *)
Definition lread (idx : nat) : kern Z := fun d =>
  match local_mem d !! idx with
  | Some v => Ok (v, d)
  | None => Err (LocalOutOfRange idx)
  end.

(** [local_mem[idx] = v] *)
Definition lwrite (idx : nat) (v : Z) : kern unit := fun d =>
  if idx <? length (local_mem d)
  then Ok (tt, Device (global_mem d) (<[idx := v]> (local_mem d)) (trace d))
  else Err (LocalOutOfRange idx).

(** Run [body] for each element of [xs], in order. *)
Fixpoint for_each {A} (xs : list A) (body : A -> kern unit) : kern unit :=
  match xs with
  | [] => kret tt
  | x :: xs' => body x ;; for_each xs' body
  end.

(** ** The kernel *)

Record nd_item : Type := NdItem {
  local_id : nat;
  global_id : nat;
  group_id : nat
}.

(** Lane [l] of group [w], for groups of [G] work-items. *)
Definition item_of (G w l : nat) : nd_item := NdItem l (w * G + l) w.

(** Lines 93-98: clear the lane's scratch cell, then load a pair. *)
Definition load_phase (iterationCount : nat) (item : nd_item) : kern unit :=
  lwrite (local_id item) 0%Z ;;
  if 2 * global_id item <? iterationCount then
    let* a := gread (global_id item) (2 * global_id item) in
    let* b := gread (global_id item) (2 * global_id item + 1) in
    lwrite (local_id item) (int_add a b)
  else kret tt.

(** Lines 103-106: the body of the stride loop for stride [i]. *)
Definition stride_phase (work_group_size i : nat) (item : nd_item) : kern unit :=
  let index := 2 * i * local_id item in
  if index <? work_group_size then
    let* a := lread index in
    let* b := lread (index + i) in
    lwrite index (int_add a b)
  else kret tt.

(** Lines 112-114: lane 0 writes the group's result. *)
Definition write_phase (item : nd_item) : kern unit :=
  if local_id item =? 0 then
    let* v := lread 0 in
    gwrite (global_id item) (group_id item) v
  else kret tt.

(** All work-items of group [w] run [phase] up to the next barrier. *)
Definition all_items (G w : nat) (phase : nd_item -> kern unit) : kern unit :=
  for_each (seq 0 G) (fun l => phase (item_of G w l)).

(** [for (int i = 1; i < work_group_size; i *= 2) { body; barrier }],
    entered with stride [i]. *)
Fixpoint stride_loop (fuel G i : nat) (body : nat -> kern unit) : kern unit :=
  if i <? G then
    match fuel with
    | O => fun _ => Err OutOfFuel
    | S fuel' => body i ;; stride_loop fuel' G (2 * i) body
    end
  else kret tt.

(** The kernel lambda run by the whole of group [w]. *)
Definition run_group (G iterationCount w : nat) : kern unit :=
  all_items G w (load_phase iterationCount) ;;
  stride_loop G G 1 (fun i => all_items G w (stride_phase G i)) ;;
  all_items G w write_phase.

(** One launch over [nd_range(G * W, G)], the groups taken in [order]. *)
Definition launch (order : list nat) (G iterationCount : nat) : kern unit :=
  for_each order (run_group G iterationCount).

Definition in_order (W : nat) : list nat := seq 0 W.

(** ** The host code of [main] *)

Definition work_group_size : nat := 512.
Definition double_work_group_size : nat := work_group_size * 2.

(** Line 74, for any size of a double work-group. *)
Definition work_group_count (dwgs iterationCount : nat) : nat :=
  (iterationCount + dwgs - 1) / dwgs.

(** Lines 40-50: the contents of [arr]. *)
Definition fill_arr (N : nat) : list Z :=
  map (fun i => if Nat.even N then (Z.of_nat i + 1)%Z else Z.of_nat i) (seq 0 N).

(** Lines 53-59: the numbers written, each followed by a space, between
    the brackets of "The array: [...]". *)
Definition displayed (N : nat) : list Z :=
  map (fun i => if Nat.even N then i else (i + 1)%Z) (fill_arr N).

(** What the host has observed: the ranges of the kernels submitted to
    the queue, the state of the buffer, the last value of
    [iterationCount]. *)
Record host : Type := Host {
  submitted : list (nat * nat);
  input_buf : outcome (list Z);
  iteration_count : nat
}.

(** [Q.submit] of the [parallel_for] over [nd_range(G * W, G)], followed
    by [Q.wait_and_throw]: the local accessor is a fresh region of [G]
    cells whose contents are [scratch]. *)
Definition submit (order : list nat) (scratch : list Z) (G W : nat) (h : host) : host :=
  Host (submitted h ++ [(G * W, G)])
       (match input_buf h with
        | Ok buf =>
            match launch order G (iteration_count h) (Device buf scratch []) with
            | Ok (_, d) => Ok (global_mem d)
            | Err e => Err e
            end
        | Err e => Err e
        end)
       (iteration_count h).

(** Lines 62-128 for the array [arr]: what is submitted and what is
    printed after "The Sum: ". [sched W] is the order in which the device
    runs the [W] groups. *)
Definition reduce_with (sched : nat -> list nat) (arr : list Z) : host * outcome Z :=
  let h0 := Host [] (Ok arr) (length arr) in
  let wgc := work_group_count double_work_group_size (iteration_count h0) in
  let h1 := submit (sched wgc) (replicate work_group_size 0%Z)
                   work_group_size wgc h0 in
  let h2 := Host (submitted h1) (input_buf h1) wgc in
  (h2, match input_buf h2 with
       | Ok buf => match buf !! 0 with
                   | Some v => Ok v
                   | None => Err (GlobalOutOfRange 0)
                   end
       | Err e => Err e
       end).

Definition reduce (arr : list Z) : outcome Z := snd (reduce_with in_order arr).

Definition main_with (sched : nat -> list nat) (N : nat) : host * outcome Z :=
  reduce_with sched (fill_arr N).

Definition main (N : nat) : outcome Z := reduce (fill_arr N).

Definition event_item (e : event) : nat :=
  match e with Load g _ | Store g _ => g end.

Definition event_index (e : event) : nat :=
  match e with Load _ idx | Store _ idx => idx end.



(** An order in which a device may run the [W] groups of a launch. *)
Definition schedule_ok (sched : nat -> list nat) : Prop :=
  forall W, Permutation (sched W) (seq 0 W).

(** ** What one phase leaves behind

    These functions describe the effect of a phase on the scratch and
    on the trace; the lemmas below prove them against the kernel. *)

(** The value the work-item with global id [g] leaves in its scratch
    cell after the load, for the buffer [B]. *)
Definition loaded (B : list Z) (iterationCount g : nat) : Z :=
  if 2 * g <? iterationCount
  then int_add (nth (2 * g) B 0%Z) (nth (2 * g + 1) B 0%Z)
  else 0%Z.

(** The buffer accesses of the load by work-item [g]. *)
Definition load_events (iterationCount g : nat) : list event :=
  if 2 * g <? iterationCount then [Load g (2 * g); Load g (2 * g + 1)] else [].

(** The scratch after the stride-[i] phase of all lanes, from [S]. *)
Definition stride_result (i : nat) (S : list Z) : list Z :=
  imap (fun p x => if p mod (2 * i) =? 0 then int_add x (nth (p + i) S 0%Z) else x) S.

(** The cells that lanes [0 .. k-1] have updated in the stride-[i] phase. *)
Definition stride_partial (i k : nat) (S : list Z) : list Z :=
  imap (fun p x => if (p mod (2 * i) =? 0) && (p <? 2 * i * k)
                   then int_add x (nth (p + i) S 0%Z) else x) S.

(** The value group [w] writes back: the wrapped sum of what its lanes
    loaded. *)
Definition group_sum (G : nat) (B : list Z) (iterationCount w : nat) : Z :=
  int_wrap (sumZ (map (fun l => loaded B iterationCount (w * G + l)) (seq 0 G))).

(** The sum of the [n] cells of [S] from cell [m] on. *)
Definition segment_sum (S : list Z) (m n : nat) : Z := sumZ (take n (drop m S)).

(** Before the stride-[i] phase every cell at a multiple of [i] holds
    the sum of the [i] cells of the loaded scratch [S0] that start there. *)
Definition tree_inv (G : nat) (S0 : list Z) (i : nat) (S : list Z) : Prop :=
  length S = G /\
  forall m, m < G -> m mod i = 0 -> S !! m = Some (int_wrap (segment_sum S0 m i)).

(** The strides of the loop for a group of [2^k] work-items. *)
Definition strides (k : nat) : list nat := map (Nat.pow 2) (seq 0 k).

(** The buffer accesses of group [w] over a whole kernel run. *)
Definition group_events (G iterationCount w : nat) : list event :=
  flat_map (fun l => load_events iterationCount (w * G + l)) (seq 0 G)
  ++ [Store (w * G) w].

Definition load_index (e : event) : list nat :=
  match e with Load _ idx => [idx] | Store _ _ => [] end.

Definition store_index (e : event) : list nat :=
  match e with Store _ idx => [idx] | Load _ _ => [] end.

(** The buffer indices read, and written, by group [w]. *)
Definition reads_of (G iterationCount w : nat) : list nat :=
  flat_map load_index (group_events G iterationCount w).

Definition writes_of (G iterationCount w : nat) : list nat :=
  flat_map store_index (group_events G iterationCount w).

(** [d'] has the buffer of [d], and a scratch of the same size. *)
Definition same_buffer (d d' : device) : Prop :=
  global_mem d' = global_mem d /\ length (local_mem d') = length (local_mem d).

(** [d'] has a buffer of the size of [d]'s, with the same contents at
    every index outside [ws]. *)
Definition same_outside (ws : list nat) (d d' : device) : Prop :=
  length (global_mem d') = length (global_mem d) /\
  forall p, ~ In p ws -> global_mem d' !! p = global_mem d !! p.

(** * Proofs *)

(** ** Wrap-around arithmetic *)

Section int_arith.
Local Open Scope Z_scope.

Lemma int_wrap_is_int z : is_int (int_wrap z).
Proof.
  unfold is_int, int_wrap.
  pose proof (Z.mod_pos_bound (z + 2 ^ 31) (2 ^ 32)). lia.
Qed.

Lemma int_wrap_id z : is_int z -> int_wrap z = z.
Proof.
  unfold is_int, int_wrap. intros Hz.
  rewrite Z.mod_small; lia.
Qed.

Lemma int_wrap_plus_l a b : int_wrap (int_wrap a + b) = int_wrap (a + b).
Proof.
  unfold int_wrap. f_equal.
  replace ((a + 2 ^ 31) mod 2 ^ 32 - 2 ^ 31 + b + 2 ^ 31)
    with ((a + 2 ^ 31) mod 2 ^ 32 + b) by lia.
  rewrite Zplus_mod_idemp_l. f_equal. lia.
Qed.

Lemma int_wrap_plus_r a b : int_wrap (a + int_wrap b) = int_wrap (a + b).
Proof. rewrite (Z.add_comm a), int_wrap_plus_l. f_equal. lia. Qed.

Lemma int_add_wrap a b : int_add (int_wrap a) (int_wrap b) = int_wrap (a + b).
Proof. unfold int_add. now rewrite int_wrap_plus_l, int_wrap_plus_r. Qed.

Lemma sumZ_app l1 l2 : sumZ (l1 ++ l2) = sumZ l1 + sumZ l2.
Proof. unfold sumZ. induction l1 as [|x l1 IH]; simpl; lia. Qed.

(** Wrapping every summand does not change the wrapped sum. *)
Lemma int_wrap_sumZ_map {A} (f : A -> Z) (l : list A) :
  int_wrap (sumZ (map (fun x => int_wrap (f x)) l)) = int_wrap (sumZ (map f l)).
Proof.
  unfold sumZ. induction l as [|x l IH]; simpl; [reflexivity|].
  rewrite int_wrap_plus_l.
  rewrite <- int_wrap_plus_r, IH, int_wrap_plus_r. reflexivity.
Qed.

End int_arith.

(** ** The memory operations and the loop over lanes *)

Lemma gread_ok g idx v d :
  global_mem d !! idx = Some v ->
  gread g idx d = Ok (v, Device (global_mem d) (local_mem d) (trace d ++ [Load g idx])).
Proof. intros H. unfold gread. now rewrite H. Qed.

Lemma gread_out g idx d :
  length (global_mem d) <= idx -> gread g idx d = Err (GlobalOutOfRange idx).
Proof. intros H. unfold gread. now rewrite (lookup_ge_None_2 _ _ H). Qed.

Lemma gwrite_ok g idx v d :
  idx < length (global_mem d) ->
  gwrite g idx v d =
  Ok (tt, Device (<[idx := v]> (global_mem d)) (local_mem d) (trace d ++ [Store g idx])).
Proof. intros H. unfold gwrite. now rewrite (proj2 (Nat.ltb_lt _ _) H). Qed.

Lemma lread_ok idx v d :
  local_mem d !! idx = Some v -> lread idx d = Ok (v, d).
Proof. intros H. unfold lread. now rewrite H. Qed.

Lemma lwrite_ok idx v d :
  idx < length (local_mem d) ->
  lwrite idx v d = Ok (tt, Device (global_mem d) (<[idx := v]> (local_mem d)) (trace d)).
Proof. intros H. unfold lwrite. now rewrite (proj2 (Nat.ltb_lt _ _) H). Qed.

Lemma kbind_ok {A B} (m : kern A) (f : A -> kern B) d a d' :
  m d = Ok (a, d') -> kbind m f d = f a d'.
Proof. intros H. unfold kbind. now rewrite H. Qed.

(** A loop over [xs] carries an invariant indexed by the number of
    elements already processed. *)
Lemma for_each_inv {A} (I : nat -> device -> Prop) (xs : list A) body d :
  I 0 d ->
  (forall k x d0, xs !! k = Some x -> I k d0 ->
     exists d1, body x d0 = Ok (tt, d1) /\ I (S k) d1) ->
  exists d', for_each xs body d = Ok (tt, d') /\ I (length xs) d'.
Proof.
  revert I d. induction xs as [|x xs IH]; intros I d H0 Hstep.
  - exists d. split; [reflexivity | exact H0].
  - destruct (Hstep 0 x d eq_refl H0) as (d1 & Hx & H1).
    destruct (IH (fun k => I (S k)) d1 H1) as (d' & Hrun & Hd').
    + intros k y d0 Hy Hk. apply (Hstep (S k) y d0); assumption.
    + exists d'. split; [|exact Hd'].
      simpl. rewrite (kbind_ok _ _ _ _ _ Hx). exact Hrun.
Qed.

Lemma list_eq_map_seq (f : nat -> Z) (S : list Z) n :
  length S = n -> (forall p, p < n -> S !! p = Some (f p)) -> S = map f (seq 0 n).
Proof.
  intros Hlen Hp. apply list_eq. intros p.
  destruct (decide (p < n)) as [Hlt|Hge].
  - rewrite (Hp p Hlt). change (map f (seq 0 n)) with (f <$> seq 0 n).
    rewrite list_lookup_fmap, lookup_seq_lt by exact Hlt. reflexivity.
  - rewrite !lookup_ge_None_2; [reflexivity| |].
    + rewrite length_map, length_seq. lia.
    + lia.
Qed.

Lemma device_eta d : d = Device (global_mem d) (local_mem d) (trace d).
Proof. now destruct d. Qed.

(** ** The load phase (lines 93-98) *)

Lemma load_phase_run L G w l d :
  l < length (local_mem d) ->
  (2 * (w * G + l) < L -> 2 * (w * G + l) + 1 < length (global_mem d)) ->
  load_phase L (item_of G w l) d =
  Ok (tt, Device (global_mem d)
                 (<[l := loaded (global_mem d) L (w * G + l)]> (local_mem d))
                 (trace d ++ load_events L (w * G + l))).
Proof.
  intros Hl Hin. unfold load_phase, loaded, load_events.
  cbn [local_id global_id item_of].
  rewrite (kbind_ok _ _ _ _ _ (lwrite_ok l 0%Z d Hl)).
  destruct (2 * (w * G + l) <? L) eqn:Hlt.
  - apply Nat.ltb_lt in Hlt. specialize (Hin Hlt).
    destruct (lookup_lt_is_Some_2 (global_mem d) (2 * (w * G + l))) as [a Ha]; [lia|].
    destruct (lookup_lt_is_Some_2 (global_mem d) (2 * (w * G + l) + 1)) as [b Hb]; [lia|].
    erewrite (kbind_ok (gread _ _)) by (apply gread_ok; exact Ha).
    erewrite (kbind_ok (gread _ _)) by (apply gread_ok; exact Hb).
    rewrite lwrite_ok by (cbn [local_mem]; rewrite length_insert; exact Hl).
    cbn [global_mem local_mem trace].
    rewrite list_insert_insert_eq, <- app_assoc.
    rewrite (nth_lookup_Some _ _ _ _ Ha), (nth_lookup_Some _ _ _ _ Hb).
    reflexivity.
  - unfold kret. rewrite app_nil_r. reflexivity.
Qed.

(** With an odd active length that fills the buffer, the work-item that
    holds the last element passes the guard and reads one index past
    the end. *)
Lemma load_phase_odd_tail L G w l d :
  2 * (w * G + l) + 1 = L ->
  length (global_mem d) = L -> l < length (local_mem d) ->
  load_phase L (item_of G w l) d = Err (GlobalOutOfRange L).
Proof.
  intros Hlast HB Hl. unfold load_phase.
  cbn [local_id global_id item_of].
  rewrite (kbind_ok _ _ _ _ _ (lwrite_ok l 0%Z d Hl)).
  rewrite (proj2 (Nat.ltb_lt (2 * (w * G + l)) L)) by lia.
  destruct (lookup_lt_is_Some_2 (global_mem d) (2 * (w * G + l))) as [a Ha]; [lia|].
  erewrite (kbind_ok (gread _ _)) by (apply gread_ok; exact Ha).
  rewrite Hlast. unfold kbind. rewrite gread_out; [reflexivity|].
  cbn [global_mem]. lia.
Qed.

(** The load phase of a whole group, from any contents of the scratch. *)
Lemma load_all_items G L w d :
  length (local_mem d) = G ->
  (forall l, l < G -> 2 * (w * G + l) < L ->
             2 * (w * G + l) + 1 < length (global_mem d)) ->
  all_items G w (load_phase L) d =
  Ok (tt, Device (global_mem d)
                 (map (fun l => loaded (global_mem d) L (w * G + l)) (seq 0 G))
                 (trace d ++ flat_map (fun l => load_events L (w * G + l)) (seq 0 G))).
Proof.
  intros Hlen Hin. unfold all_items.
  set (B := global_mem d). set (tr := trace d).
  destruct (for_each_inv
    (fun k d0 =>
       global_mem d0 = B /\
       trace d0 = tr ++ flat_map (fun l => load_events L (w * G + l)) (seq 0 k) /\
       length (local_mem d0) = G /\
       forall p, p < k -> local_mem d0 !! p = Some (loaded B L (w * G + p)))
    (seq 0 G) (fun l => load_phase L (item_of G w l)) d) as (d' & Hrun & HI).
  - repeat split; try assumption.
    + simpl. now rewrite app_nil_r.
    + intros p Hp. lia.
  - intros k l d0 Hk (HB & Htr & Hlen0 & Hcells).
    apply lookup_seq in Hk. destruct Hk as [-> Hk]. cbn [Nat.add].
    eexists. split.
    + apply load_phase_run; [lia|]. rewrite HB. intros. apply Hin; [lia|assumption].
    + cbn [global_mem local_mem trace]. repeat split.
      * exact HB.
      * rewrite Htr, seq_S, flat_map_app, <- app_assoc. simpl.
        now rewrite app_nil_r.
      * now rewrite length_insert.
      * intros p Hp. destruct (decide (p = k)) as [->|Hne].
        -- rewrite HB. apply list_lookup_insert_eq. lia.
        -- rewrite list_lookup_insert_ne by congruence. apply Hcells. lia.
  - rewrite length_seq in HI. destruct HI as (HB & Htr & Hlen' & Hcells).
    rewrite Hrun. do 2 f_equal. rewrite (device_eta d'). f_equal.
    + exact HB.
    + apply list_eq_map_seq; assumption.
    + exact Htr.
Qed.

(** ** One stride of the tree reduction (lines 103-108) *)

Lemma even_multiple_mod i k : (2 * i * k) mod (2 * i) = 0.
Proof. rewrite Nat.mul_comm. apply Nat.Div0.mod_mul. Qed.

Lemma odd_multiple_mod i k : 0 < i -> (2 * i * k + i) mod (2 * i) = i.
Proof.
  intros Hi. rewrite Nat.add_comm, (Nat.mul_comm (2 * i) k), Nat.Div0.mod_add.
  apply Nat.mod_small. lia.
Qed.

Lemma multiple_between i k p :
  p mod (2 * i) = 0 -> 2 * i * k <= p < 2 * i * (k + 1) -> p = 2 * i * k.
Proof.
  intros Hmod Hp. destruct (decide (i = 0)) as [->|Hi]; [simpl in *; lia|].
  apply Nat.Div0.div_exact in Hmod. remember (p / (2 * i)) as q eqn:Hq.
  clear Hq. subst p. f_equal.
  assert (k <= q) by (apply (Nat.mul_le_mono_pos_l _ _ (2 * i)); lia).
  assert (q < k + 1) by (apply (Nat.mul_lt_mono_pos_l (2 * i)); lia).
  lia.
Qed.

Lemma multiple_room G i k :
  0 < i -> G mod (2 * i) = 0 -> 2 * i * k < G -> 2 * i * k + i < G.
Proof.
  intros Hi Hmod Hk. apply Nat.Div0.div_exact in Hmod.
  remember (G / (2 * i)) as q eqn:Hq. clear Hq. subst G.
  assert (k < q) by (apply (Nat.mul_lt_mono_pos_l (2 * i)); lia).
  nia.
Qed.

Lemma stride_phase_active G i w l a b d :
  2 * i * l < G ->
  local_mem d !! (2 * i * l) = Some a ->
  local_mem d !! (2 * i * l + i) = Some b ->
  stride_phase G i (item_of G w l) d =
  Ok (tt, Device (global_mem d) (<[2 * i * l := int_add a b]> (local_mem d)) (trace d)).
Proof.
  intros Hlt Ha Hb. unfold stride_phase. cbn [local_id item_of].
  rewrite (proj2 (Nat.ltb_lt _ _) Hlt).
  rewrite (kbind_ok _ _ _ _ _ (lread_ok _ _ _ Ha)).
  rewrite (kbind_ok _ _ _ _ _ (lread_ok _ _ _ Hb)).
  apply lwrite_ok. now apply lookup_lt_Some in Ha.
Qed.

Lemma stride_phase_idle G i w l d :
  G <= 2 * i * l -> stride_phase G i (item_of G w l) d = Ok (tt, d).
Proof.
  intros Hge. unfold stride_phase. cbn [local_id item_of].
  now rewrite (proj2 (Nat.ltb_ge _ _) Hge).
Qed.

Lemma stride_partial_all G i S :
  length S = G -> 0 < i -> stride_partial i G S = stride_result i S.
Proof.
  intros Hlen Hi. apply list_eq. intros p.
  unfold stride_partial, stride_result. rewrite !list_lookup_imap.
  destruct (S !! p) as [x|] eqn:Hx; [|reflexivity]. cbn [fmap option_fmap option_map andb].
  apply lookup_lt_Some in Hx.
  assert ((p <? 2 * i * G) = true) as -> by (apply Nat.ltb_lt; nia).
  now rewrite andb_true_r.
Qed.

Lemma stride_all_items G i w d :
  length (local_mem d) = G -> 0 < i -> G mod (2 * i) = 0 ->
  all_items G w (stride_phase G i) d =
  Ok (tt, Device (global_mem d) (stride_result i (local_mem d)) (trace d)).
Proof.
  intros Hlen Hi Hmod. unfold all_items.
  set (S0 := local_mem d) in *.
  destruct (for_each_inv
    (fun k d0 => global_mem d0 = global_mem d /\ trace d0 = trace d /\
                 local_mem d0 = stride_partial i k S0)
    (seq 0 G) (fun l => stride_phase G i (item_of G w l)) d) as (d' & Hrun & HI).
  - repeat split. apply list_eq. intros p.
    unfold stride_partial. rewrite list_lookup_imap.
    replace (2 * i * 0) with 0 by lia. rewrite andb_false_r.
    fold S0. now destruct (S0 !! p).
  - intros k l d0 Hk (HB & Htr & Hloc).
    apply lookup_seq in Hk. destruct Hk as [-> Hk]. cbn [Nat.add].
    destruct (decide (2 * i * k < G)) as [Hact|Hidle].
    + pose proof (multiple_room G i k Hi Hmod Hact) as Hroom.
      destruct (lookup_lt_is_Some_2 S0 (2 * i * k)) as [a Ha]; [lia|].
      destruct (lookup_lt_is_Some_2 S0 (2 * i * k + i)) as [b Hb]; [lia|].
      eexists. split.
      * apply (stride_phase_active G i w k a b); [exact Hact| |].
        -- rewrite Hloc. unfold stride_partial. rewrite list_lookup_imap, Ha. cbn [fmap option_fmap option_map andb].
           rewrite Nat.ltb_irrefl, andb_false_r. reflexivity.
        -- rewrite Hloc. unfold stride_partial. rewrite list_lookup_imap, Hb. cbn [fmap option_fmap option_map andb].
           rewrite odd_multiple_mod by exact Hi.
           destruct (i =? 0) eqn:Ei; [apply Nat.eqb_eq in Ei; lia|reflexivity].
      * cbn [global_mem local_mem trace]. repeat split; try assumption.
        rewrite Hloc. apply list_eq. intros p.
        unfold stride_partial. rewrite list_lookup_imap.
        destruct (decide (p = 2 * i * k)) as [->|Hne].
        -- rewrite list_lookup_insert_eq by (rewrite length_imap; lia).
           rewrite Ha. cbn [fmap option_fmap option_map andb]. rewrite even_multiple_mod.
           assert ((2 * i * k <? 2 * i * S k) = true) as -> by (apply Nat.ltb_lt; lia).
           cbn [fmap option_fmap option_map andb]. now rewrite (nth_lookup_Some _ _ _ _ Hb).
        -- rewrite list_lookup_insert_ne by congruence.
           rewrite list_lookup_imap. destruct (S0 !! p) as [x|]; [|reflexivity].
           cbn [fmap option_fmap option_map andb]. f_equal.
           destruct (p mod (2 * i) =? 0) eqn:Em; [|reflexivity]. cbn [fmap option_fmap option_map andb].
           apply Nat.eqb_eq in Em.
           destruct (p <? 2 * i * k) eqn:E1, (p <? 2 * i * S k) eqn:E2;
             try reflexivity.
           ++ apply Nat.ltb_lt in E1. apply Nat.ltb_ge in E2. lia.
           ++ apply Nat.ltb_ge in E1. apply Nat.ltb_lt in E2.
              exfalso. apply Hne. apply multiple_between; [exact Em|lia].
    + exists d0. split; [apply stride_phase_idle; lia|].
      repeat split; try assumption.
      rewrite Hloc. apply list_eq. intros p.
      unfold stride_partial. rewrite !list_lookup_imap.
      destruct (S0 !! p) as [x|] eqn:Hx; [|reflexivity]. cbn [fmap option_fmap option_map andb].
      apply lookup_lt_Some in Hx.
      assert ((p <? 2 * i * k) = true) as -> by (apply Nat.ltb_lt; lia).
      assert ((p <? 2 * i * S k) = true) as -> by (apply Nat.ltb_lt; lia).
      reflexivity.
  - rewrite length_seq in HI. destruct HI as (HB & Htr & Hloc).
    rewrite Hrun. do 2 f_equal. rewrite (device_eta d'). f_equal; try assumption.
    rewrite Hloc. apply stride_partial_all; [exact Hlen|exact Hi].
Qed.

(** ** The stride loop (lines 102-109) *)

Lemma pow2_gt k : k < 2 ^ k.
Proof. apply Nat.pow_gt_lin_r. lia. Qed.

(** With enough fuel the loop entered at stride [i], for [G = i * 2^n],
    runs its body for [i, 2i, ..., i * 2^(n-1)] and stops. *)
Lemma stride_loop_unroll n : forall fuel G i body d,
  0 < i -> G = i * 2 ^ n -> n <= fuel ->
  stride_loop fuel G i body d =
  for_each (map (fun j => i * 2 ^ j) (seq 0 n)) body d.
Proof.
  induction n as [|n IH]; intros fuel G i body d Hi HG Hfuel.
  - assert (G = i) as -> by (rewrite HG; simpl; lia).
    destruct fuel; simpl; now rewrite Nat.ltb_irrefl.
  - destruct fuel as [|fuel]; [lia|].
    assert (i < G) as Hlt.
    { rewrite HG. pose proof (pow2_gt (S n)). nia. }
    cbn [stride_loop]. rewrite (proj2 (Nat.ltb_lt _ _) Hlt).
    cbn [seq map for_each]. rewrite Nat.pow_0_r, Nat.mul_1_r.
    unfold kbind. destruct (body i d) as [[[] d1]|e]; [|reflexivity].
    rewrite (IH fuel G (2 * i) body d1); [|lia| |lia].
    + rewrite <- seq_shift, map_map. f_equal. apply map_ext. intros j.
      rewrite Nat.pow_succ_r'. lia.
    + rewrite HG, Nat.pow_succ_r'. lia.
Qed.

Lemma stride_loop_strides k body d :
  stride_loop (2 ^ k) (2 ^ k) 1 body d = for_each (strides k) body d.
Proof.
  rewrite (stride_loop_unroll k); [|lia|lia|pose proof (pow2_gt k); lia].
  unfold strides. f_equal. apply map_ext. intros j. lia.
Qed.

Lemma segment_sum_split S m a b :
  segment_sum S m (a + b) = (segment_sum S m a + segment_sum S (m + a) b)%Z.
Proof.
  unfold segment_sum. rewrite <- sumZ_app, <- drop_drop. f_equal.
  symmetry. apply take_take_drop.
Qed.

Lemma tree_inv_start G S0 :
  length S0 = G -> Forall is_int S0 -> tree_inv G S0 1 S0.
Proof.
  intros Hlen Hint. split; [exact Hlen|]. intros m Hm _.
  destruct (lookup_lt_is_Some_2 S0 m) as [x Hx]; [lia|].
  rewrite Hx. f_equal. unfold segment_sum.
  rewrite (drop_S _ _ _ Hx). cbn [take]. unfold sumZ. simpl.
  rewrite Z.add_0_r. symmetry. apply int_wrap_id.
  rewrite Forall_forall in Hint. apply Hint. apply list_elem_of_In.
  eapply list_elem_of_lookup_2. exact Hx.
Qed.

Lemma tree_inv_step G S0 i S :
  0 < i -> G mod (2 * i) = 0 ->
  tree_inv G S0 i S -> tree_inv G S0 (2 * i) (stride_result i S).
Proof.
  intros Hi Hmod [Hlen Hcells]. split.
  - unfold stride_result. now rewrite length_imap.
  - intros m Hm Hm2.
    assert (exists q, m = 2 * i * q) as [q ->].
    { exists (m / (2 * i)). now apply Nat.Div0.div_exact. }
    pose proof (multiple_room G i q Hi Hmod Hm) as Hroom.
    assert (S !! (2 * i * q) = Some (int_wrap (segment_sum S0 (2 * i * q) i))) as Ha.
    { apply Hcells; [exact Hm|].
      replace (2 * i * q) with (2 * q * i) by lia. apply Nat.Div0.mod_mul. }
    assert (S !! (2 * i * q + i) = Some (int_wrap (segment_sum S0 (2 * i * q + i) i))) as Hb.
    { apply Hcells; [exact Hroom|].
      replace (2 * i * q + i) with ((2 * q + 1) * i) by lia. apply Nat.Div0.mod_mul. }
    unfold stride_result. rewrite list_lookup_imap, Ha.
    cbn [fmap option_fmap option_map]. rewrite Hm2, Nat.eqb_refl.
    rewrite (nth_lookup_Some _ _ _ _ Hb), int_add_wrap.
    rewrite <- segment_sum_split.
    replace (i + i) with (2 * i) by lia. reflexivity.
Qed.

(** The tree reduction of a group of [2^k] work-items leaves in cell 0
    the wrapped sum of the loaded scratch and touches no global memory. *)
Lemma tree_reduce_run k w d :
  length (local_mem d) = 2 ^ k -> Forall is_int (local_mem d) ->
  exists S',
    stride_loop (2 ^ k) (2 ^ k) 1
                (fun i => all_items (2 ^ k) w (stride_phase (2 ^ k) i)) d =
    Ok (tt, Device (global_mem d) S' (trace d)) /\
    length S' = 2 ^ k /\
    S' !! 0 = Some (int_wrap (sumZ (local_mem d))).
Proof.
  intros Hlen Hint. rewrite stride_loop_strides.
  set (G := 2 ^ k) in *. set (S0 := local_mem d) in *.
  destruct (for_each_inv
    (fun j d0 => global_mem d0 = global_mem d /\ trace d0 = trace d /\
                 tree_inv G S0 (2 ^ j) (local_mem d0))
    (strides k) (fun i => all_items G w (stride_phase G i)) d) as (d' & Hrun & HI).
  - repeat split; [exact Hlen|]. apply tree_inv_start; assumption.
  - intros j i d0 Hj (HB & Htr & Hinv). unfold strides in Hj.
    change (map (Nat.pow 2) (seq 0 k)) with (Nat.pow 2 <$> seq 0 k) in Hj.
    rewrite list_lookup_fmap in Hj.
    destruct (seq 0 k !! j) as [j'|] eqn:Hj'; [|discriminate].
    apply lookup_seq in Hj'. destruct Hj' as [-> Hjk]. cbn [Nat.add] in Hj.
    injection Hj as <-.
    assert (0 < 2 ^ j) as Hpos by (apply Nat.neq_0_lt_0, Nat.pow_nonzero; lia).
    assert (G mod (2 * 2 ^ j) = 0) as Hmod.
    { unfold G. replace k with ((k - S j) + S j) by lia.
      rewrite Nat.pow_add_r, <- Nat.pow_succ_r'. apply Nat.Div0.mod_mul. }
    eexists. split.
    + apply stride_all_items; [apply Hinv|exact Hpos|exact Hmod].
    + cbn [global_mem local_mem trace]. repeat split; try assumption.
      * unfold stride_result. rewrite length_imap. apply Hinv.
      * rewrite Nat.pow_succ_r'. apply tree_inv_step; assumption.
  - unfold strides in HI. rewrite length_map, length_seq in HI.
    destruct HI as (HB & Htr & Hlen' & Hcells).
    exists (local_mem d'). split; [|split].
    + rewrite Hrun, <- HB, <- Htr, <- device_eta. reflexivity.
    + exact Hlen'.
    + rewrite (Hcells 0).
      * unfold segment_sum. fold G. rewrite drop_0, take_ge by lia. reflexivity.
      * unfold G. apply Nat.neq_0_lt_0, Nat.pow_nonzero. lia.
      * apply Nat.Div0.mod_0_l.
Qed.

(** ** The write-back (lines 112-114) and the whole kernel *)

Lemma write_all_items G w v d :
  0 < G -> local_mem d !! 0 = Some v -> w < length (global_mem d) ->
  all_items G w write_phase d =
  Ok (tt, Device (<[w := v]> (global_mem d)) (local_mem d)
                 (trace d ++ [Store (w * G) w])).
Proof.
  intros HG Hv Hw. unfold all_items.
  destruct G as [|G']; [lia|]. cbn [seq for_each].
  set (d1 := Device (<[w := v]> (global_mem d)) (local_mem d)
                    (trace d ++ [Store (w * S G') w])).
  assert (write_phase (item_of (S G') w 0) d = Ok (tt, d1)) as H0.
  { unfold write_phase. cbn [local_id global_id group_id item_of Nat.eqb].
    rewrite (kbind_ok _ _ _ _ _ (lread_ok _ _ _ Hv)).
    rewrite Nat.add_0_r. now apply gwrite_ok. }
  rewrite (kbind_ok _ _ _ _ _ H0).
  destruct (for_each_inv (fun _ d0 => d0 = d1) (seq 1 G')
              (fun l => write_phase (item_of (S G') w l)) d1) as (d' & Hrun & ->).
  - reflexivity.
  - intros k l d0 Hk ->. apply lookup_seq in Hk. destruct Hk as [-> _].
    exists d1. split; reflexivity.
  - exact Hrun.
Qed.

Lemma loaded_is_int B L g : is_int (loaded B L g).
Proof.
  unfold loaded. destruct (2 * g <? L).
  - apply int_wrap_is_int.
  - unfold is_int. lia.
Qed.

(** A whole group of [2^k] work-items, from any contents of the scratch:
    if its pair-loads and its write-back are within the buffer, the
    kernel stores the group's sum at index [w] and accesses the buffer
    as [group_events] lists. *)
Lemma run_group_ok k L w d :
  length (local_mem d) = 2 ^ k ->
  (forall l, l < 2 ^ k -> 2 * (w * 2 ^ k + l) < L ->
             2 * (w * 2 ^ k + l) + 1 < length (global_mem d)) ->
  w < length (global_mem d) ->
  exists S',
    run_group (2 ^ k) L w d =
    Ok (tt, Device (<[w := group_sum (2 ^ k) (global_mem d) L w]> (global_mem d))
                   S' (trace d ++ group_events (2 ^ k) L w)) /\
    length S' = 2 ^ k.
Proof.
  intros Hlen Hin Hw. unfold run_group.
  rewrite (kbind_ok _ _ _ _ _ (load_all_items _ L w d Hlen Hin)).
  match goal with |- context [kbind _ _ ?d1] => set (dl := d1) end.
  destruct (tree_reduce_run k w dl) as (S' & Hrun & Hlen' & H0).
  - unfold dl. cbn [local_mem]. now rewrite length_map, length_seq.
  - unfold dl. cbn [local_mem]. apply Forall_forall. intros x Hx.
    apply in_map_iff in Hx. destruct Hx as (l & <- & _). apply loaded_is_int.
  - exists S'. split; [|exact Hlen'].
    rewrite (kbind_ok _ _ _ _ _ Hrun).
    erewrite write_all_items; [| |cbn [local_mem]; exact H0|exact Hw].
    + unfold dl, group_events, group_sum. cbn [global_mem local_mem trace].
      now rewrite <- app_assoc.
    + apply Nat.neq_0_lt_0, Nat.pow_nonzero. lia.
Qed.

(** ** What a group sums up *)

Lemma int_wrap_plus_congr a a' b b' :
  int_wrap a = int_wrap a' -> int_wrap b = int_wrap b' ->
  int_wrap (a + b) = int_wrap (a' + b').
Proof.
  intros Ha Hb. rewrite <- int_wrap_plus_l, <- int_wrap_plus_r, Ha, Hb.
  now rewrite int_wrap_plus_l, int_wrap_plus_r.
Qed.

Lemma even_lt_succ L g : Nat.even L = true -> 2 * g < L -> 2 * g + 1 < L.
Proof.
  intros HL Hg. apply Nat.even_spec in HL. destruct HL as [m ->]. lia.
Qed.

Lemma loaded_pair B L g :
  Nat.even L = true -> L <= length B ->
  int_wrap (loaded B L g) = int_wrap (segment_sum (take L B) (2 * g) 2).
Proof.
  intros HL HB. unfold loaded, segment_sum.
  destruct (2 * g <? L) eqn:Hlt.
  - apply Nat.ltb_lt in Hlt. pose proof (even_lt_succ L g HL Hlt) as Hlt1.
    destruct (lookup_lt_is_Some_2 B (2 * g)) as [a Ha]; [lia|].
    destruct (lookup_lt_is_Some_2 B (2 * g + 1)) as [b Hb]; [lia|].
    rewrite (nth_lookup_Some _ _ _ _ Ha), (nth_lookup_Some _ _ _ _ Hb).
    assert (take L B !! (2 * g) = Some a) as Ha'
      by (rewrite lookup_take_lt by lia; exact Ha).
    assert (take L B !! (S (2 * g)) = Some b) as Hb'
      by (rewrite lookup_take_lt by lia; rewrite <- Hb; f_equal; lia).
    rewrite (drop_S _ _ _ Ha'), (drop_S _ _ _ Hb'). cbn [take].
    unfold sumZ, int_add. cbn [foldr].
    rewrite Z.add_0_r. apply int_wrap_id, int_wrap_is_int.
  - apply Nat.ltb_ge in Hlt.
    rewrite drop_ge by (rewrite length_take; lia). reflexivity.
Qed.

Lemma loaded_prefix_sum B L g0 n :
  Nat.even L = true -> L <= length B ->
  int_wrap (sumZ (map (fun l => loaded B L (g0 + l)) (seq 0 n))) =
  int_wrap (segment_sum (take L B) (2 * g0) (2 * n)).
Proof.
  intros HL HB. induction n as [|n IH].
  - reflexivity.
  - rewrite seq_S, map_app, sumZ_app. cbn [Nat.add map].
    replace (2 * S n) with (2 * n + 2) by lia. rewrite segment_sum_split.
    apply int_wrap_plus_congr; [exact IH|].
    unfold sumZ at 1. cbn [foldr]. rewrite Z.add_0_r.
    replace (2 * g0 + 2 * n) with (2 * (g0 + n)) by lia.
    now apply loaded_pair.
Qed.

(** For an even active length, group [w] writes the wrapped sum of its
    slice [2wG, 2(w+1)G) of the active prefix. *)
Lemma group_sum_slice G B L w :
  Nat.even L = true -> L <= length B ->
  group_sum G B L w = int_wrap (segment_sum (take L B) (2 * w * G) (2 * G)).
Proof.
  intros HL HB. unfold group_sum. rewrite loaded_prefix_sum by assumption.
  do 2 f_equal. lia.
Qed.

Lemma group_sum_whole G B :
  Nat.even (length B) = true -> length B <= 2 * G ->
  group_sum G B (length B) 0 = int_wrap (sumZ B).
Proof.
  intros HL HB. rewrite group_sum_slice by (try assumption; lia).
  unfold segment_sum. rewrite Nat.mul_0_r, Nat.mul_0_l, drop_0.
  now rewrite !take_ge by (try rewrite length_take; lia).
Qed.

(** ** The number of work-groups (line 74) *)

Lemma work_group_count_lt G L :
  1 <= G -> 2 <= L -> work_group_count (2 * G) L < L.
Proof.
  intros HG HL. unfold work_group_count.
  apply Nat.Div0.div_lt_upper_bound. nia.
Qed.

Lemma work_group_count_le G L :
  1 <= G -> work_group_count (2 * G) L <= L.
Proof.
  intros HG. unfold work_group_count.
  destruct (decide (L = 0)) as [->|HL].
  - rewrite Nat.div_small; lia.
  - apply Nat.lt_succ_r, Nat.Div0.div_lt_upper_bound. nia.
Qed.

(** Group [w] of the launch starts inside the active prefix. *)
Lemma group_starts_inside G L w :
  1 <= G -> w < work_group_count (2 * G) L -> 2 * (w * G) < L.
Proof.
  intros HG Hw. unfold work_group_count in Hw.
  destruct (decide (2 * (w * G) < L)) as [|Hge]; [assumption|exfalso].
  assert ((L + 2 * G - 1) / (2 * G) <= w); [|lia].
  apply Nat.lt_succ_r, Nat.Div0.div_lt_upper_bound. nia.
Qed.

Lemma work_group_count_one G L :
  1 <= G -> 1 <= L <= 2 * G -> work_group_count (2 * G) L = 1.
Proof.
  intros HG HL. unfold work_group_count.
  replace (L + 2 * G - 1) with ((L - 1) + 1 * (2 * G)) by lia.
  rewrite Nat.div_add by lia. rewrite Nat.div_small; lia.
Qed.

(** ** A launch whose groups run in ascending order *)

Lemma loaded_ext B B' L g :
  B !! (2 * g) = B' !! (2 * g) -> B !! (2 * g + 1) = B' !! (2 * g + 1) ->
  loaded B L g = loaded B' L g.
Proof.
  intros H0 H1. unfold loaded. now rewrite !nth_lookup, H0, H1.
Qed.

Lemma launch_in_order k L B S tr :
  Nat.even L = true -> L <= length B -> length S = 2 ^ k ->
  exists d',
    launch (in_order (work_group_count (2 * 2 ^ k) L)) (2 ^ k) L (Device B S tr) =
    Ok (tt, d') /\
    length (global_mem d') = length B /\
    (forall w, w < work_group_count (2 * 2 ^ k) L ->
               global_mem d' !! w = Some (group_sum (2 ^ k) B L w)) /\
    (forall p, work_group_count (2 * 2 ^ k) L <= p -> global_mem d' !! p = B !! p) /\
    trace d' = tr ++ flat_map (group_events (2 ^ k) L)
                              (in_order (work_group_count (2 * 2 ^ k) L)).
Proof.
  intros HL HB HS. unfold launch, in_order.
  set (G := 2 ^ k) in *. set (W := work_group_count (2 * G) L).
  assert (1 <= G) as HG by (apply Nat.neq_0_lt_0, Nat.pow_nonzero; lia).
  destruct (for_each_inv
    (fun j d0 =>
       length (local_mem d0) = G /\ length (global_mem d0) = length B /\
       (forall w, w < j -> global_mem d0 !! w = Some (group_sum G B L w)) /\
       (forall p, j <= p -> global_mem d0 !! p = B !! p) /\
       trace d0 = tr ++ flat_map (group_events G L) (seq 0 j))
    (seq 0 W) (run_group G L) (Device B S tr)) as (d' & Hrun & HI).
  - cbn [global_mem local_mem trace seq flat_map]. rewrite app_nil_r.
    repeat split; try assumption; try reflexivity. intros w Hw. lia.
  - intros j w d0 Hj (Hloc & Hlen & Hdone & Hrest & Htr).
    apply lookup_seq in Hj. destruct Hj as [-> Hj]. cbn [Nat.add].
    pose proof (group_starts_inside G L j HG Hj) as Hstart.
    destruct (run_group_ok k L j d0) as (S' & Hgo & HS').
    + exact Hloc.
    + fold G. intros l Hl Hlt. rewrite Hlen.
      pose proof (even_lt_succ L _ HL Hlt). lia.
    + rewrite Hlen. pose proof (work_group_count_le G L HG). fold W in H. lia.
    + fold G in Hgo, HS'. eexists. split; [exact Hgo|].
      cbn [global_mem local_mem trace].
      assert (group_sum G (global_mem d0) L j = group_sum G B L j) as ->.
      { unfold group_sum. do 2 f_equal. apply map_ext. intros l.
        apply loaded_ext; apply Hrest; nia. }
      repeat split.
      * exact HS'.
      * now rewrite length_insert.
      * intros w Hw. destruct (decide (w = j)) as [->|Hne].
        -- apply list_lookup_insert_eq. rewrite Hlen.
           pose proof (work_group_count_le G L HG). fold W in H. lia.
        -- rewrite list_lookup_insert_ne by congruence. apply Hdone. lia.
      * intros p Hp. rewrite list_lookup_insert_ne by lia. apply Hrest. lia.
      * rewrite Htr, seq_S, flat_map_app, <- app_assoc. cbn [Nat.add flat_map].
        now rewrite app_nil_r.
  - rewrite length_seq in HI. destruct HI as (_ & Hlen & Hdone & Hrest & Htr).
    exists d'. repeat split; assumption.
Qed.

Lemma work_group_count_covers G L :
  1 <= G -> L <= work_group_count (2 * G) L * (2 * G).
Proof.
  intros HG. unfold work_group_count.
  pose proof (Nat.Div0.div_mod (L + 2 * G - 1) (2 * G)) as Hdm.
  pose proof (Nat.mod_upper_bound (L + 2 * G - 1) (2 * G) ltac:(lia)) as Hmod.
  nia.
Qed.

Lemma segment_sum_blocks X c n :
  sumZ (map (fun w => segment_sum X (w * c) c) (seq 0 n)) = segment_sum X 0 (n * c).
Proof.
  induction n as [|n IH].
  - reflexivity.
  - rewrite seq_S, map_app, sumZ_app, IH. cbn [Nat.add map].
    replace (S n * c) with (n * c + c) by lia.
    rewrite segment_sum_split. unfold sumZ at 1. cbn [foldr Nat.add].
    lia.
Qed.

(** With an even active length and the groups in ascending order, one
    sweep leaves in the first [W] cells partial sums whose total is the
    total of the active prefix. *)
Lemma launch_in_order_preserves_sum k L B S tr :
  Nat.even L = true -> L <= length B -> length S = 2 ^ k ->
  exists d',
    launch (in_order (work_group_count (2 * 2 ^ k) L)) (2 ^ k) L (Device B S tr) =
    Ok (tt, d') /\
    int_wrap (sumZ (take (work_group_count (2 * 2 ^ k) L) (global_mem d'))) =
    int_wrap (sumZ (take L B)).
Proof.
  intros HL HB HS.
  destruct (launch_in_order k L B S tr HL HB HS) as (d' & Hrun & Hlen & Hdone & _ & _).
  exists d'. split; [exact Hrun|].
  set (G := 2 ^ k) in *. set (W := work_group_count (2 * G) L) in *.
  assert (1 <= G) as HG by (apply Nat.neq_0_lt_0, Nat.pow_nonzero; lia).
  pose proof (work_group_count_le G L HG) as HWL. fold W in HWL.
  pose proof (work_group_count_covers G L HG) as Hcov. fold W in Hcov.
  rewrite (list_eq_map_seq (fun w => group_sum G B L w) (take W (global_mem d')) W).
  - rewrite (map_ext _ (fun w => int_wrap (segment_sum (take L B) (w * (2 * G)) (2 * G)))).
    + rewrite int_wrap_sumZ_map, segment_sum_blocks. unfold segment_sum.
      rewrite drop_0, take_ge by (rewrite length_take; lia). reflexivity.
    + intros w. rewrite group_sum_slice by assumption. do 2 f_equal. lia.
  - rewrite length_take. lia.
  - intros w Hw. rewrite lookup_take_lt by exact Hw. now apply Hdone.
Qed.

(** ** The host code *)

Lemma work_group_count_pos G L :
  1 <= G -> 1 <= L -> 1 <= work_group_count (2 * G) L.
Proof.
  intros HG HL. unfold work_group_count.
  apply Nat.div_le_lower_bound; lia.
Qed.

Lemma in_order_ok : schedule_ok in_order.
Proof. intros W. reflexivity. Qed.

Lemma schedule_one sched : schedule_ok sched -> sched 1 = in_order 1.
Proof.
  intros Hs. specialize (Hs 1). cbn [seq] in Hs.
  symmetry in Hs. now apply Permutation_singleton_l in Hs.
Qed.

Lemma reduce_with_eq sched arr :
  reduce_with sched arr =
  let W := work_group_count double_work_group_size (length arr) in
  let r := match launch (sched W) work_group_size (length arr)
                        (Device arr (replicate work_group_size 0%Z) []) with
           | Ok (_, d) => Ok (global_mem d)
           | Err e => Err e
           end in
  (Host [(work_group_size * W, work_group_size)] r W,
   match r with
   | Ok buf => match buf !! 0 with
               | Some v => Ok v
               | None => Err (GlobalOutOfRange 0)
               end
   | Err e => Err e
   end).
Proof. reflexivity. Qed.

(** With the groups in ascending order and an even number of elements,
    the program prints the wrapped sum of the first 1024 elements. *)
Lemma reduce_even arr :
  Nat.even (length arr) = true -> 2 <= length arr ->
  reduce arr = Ok (int_wrap (sumZ (take double_work_group_size arr))).
Proof.
  intros Heven Hlen. unfold reduce. rewrite reduce_with_eq. cbn [snd].
  change double_work_group_size with (2 * 2 ^ 9).
  change work_group_size with (2 ^ 9).
  destruct (launch_in_order 9 (length arr) arr (replicate (2 ^ 9) 0%Z) [])
    as (d' & Hrun & _ & Hdone & _ & _);
    [exact Heven|lia|apply length_replicate|].
  rewrite Hrun. rewrite Hdone.
  - f_equal. rewrite group_sum_slice by (try assumption; lia).
    unfold segment_sum. rewrite Nat.mul_0_r, Nat.mul_0_l, drop_0.
    now rewrite (take_ge arr (length arr)) by lia.
  - apply work_group_count_pos; [|lia].
    apply Nat.neq_0_lt_0, Nat.pow_nonzero. lia.
Qed.

Lemma reduce_with_single sched arr :
  schedule_ok sched -> 1 <= length arr <= 2 * work_group_size ->
  reduce_with sched arr = reduce_with in_order arr.
Proof.
  intros Hs Hlen. rewrite !reduce_with_eq. cbv zeta.
  change double_work_group_size with (2 * work_group_size).
  rewrite work_group_count_one by (unfold work_group_size in *; lia).
  now rewrite (schedule_one sched Hs).
Qed.



(** ** The accesses of a group *)

Lemma load_events_in L g e :
  In e (load_events L g) ->
  2 * g < L /\ event_item e = g /\
  (e = Load g (2 * g) \/ e = Load g (2 * g + 1)).
Proof.
  unfold load_events. destruct (2 * g <? L) eqn:Hlt; [|intros []].
  apply Nat.ltb_lt in Hlt.
  intros [<-|[<-|[]]]; cbn [event_item]; auto.
Qed.

Lemma group_events_in G L w e :
  In e (group_events G L w) ->
  (exists l, l < G /\ In e (load_events L (w * G + l))) \/ e = Store (w * G) w.
Proof.
  unfold group_events. rewrite in_app_iff, in_flat_map.
  intros [(l & Hl & He)|[<-|[]]]; [left|right; reflexivity].
  apply in_seq in Hl. exists l. split; [lia|exact He].
Qed.



Lemma store_index_loads L (gid : nat -> nat) ls :
  flat_map store_index (flat_map (fun l => load_events L (gid l)) ls) = [].
Proof.
  induction ls as [|l ls IH]; [reflexivity|].
  cbn [flat_map]. rewrite flat_map_app, IH, app_nil_r.
  unfold load_events. now destruct (2 * gid l <? L).
Qed.

Lemma writes_of_group G L w : writes_of G L w = [w].
Proof.
  unfold writes_of, group_events.
  now rewrite flat_map_app, store_index_loads.
Qed.



(** For an even active length within the buffer, the kernel run by a
    group of the launch succeeds and its accesses are [group_events]. *)
Lemma run_group_even k L w d :
  Nat.even L = true -> L <= length (global_mem d) ->
  length (local_mem d) = 2 ^ k -> w < work_group_count (2 * 2 ^ k) L ->
  exists S',
    run_group (2 ^ k) L w d =
    Ok (tt, Device (<[w := group_sum (2 ^ k) (global_mem d) L w]> (global_mem d))
                   S' (trace d ++ group_events (2 ^ k) L w)) /\
    length S' = 2 ^ k.
Proof.
  intros Heven HL Hloc Hw.
  assert (1 <= 2 ^ k) as HG by (apply Nat.neq_0_lt_0, Nat.pow_nonzero; lia).
  pose proof (group_starts_inside _ L w HG Hw) as Hstart.
  apply run_group_ok.
  - exact Hloc.
  - intros l Hl Hlt. pose proof (even_lt_succ _ _ Heven Hlt). lia.
  - nia.
Qed.


Lemma snd_main_with N : snd (main_with in_order N) = main N.
Proof. reflexivity. Qed.

Lemma length_fill_arr N : length (fill_arr N) = N.
Proof. unfold fill_arr. now rewrite length_map, length_seq. Qed.

(** Repeating the update of line 122 [k] times from any [N] with
    [1 <= N <= (2G)^k] arrives at 1. *)
Lemma work_group_count_iter G k : forall N,
  1 <= G -> 1 <= N <= (2 * G) ^ k ->
  Nat.iter k (work_group_count (2 * G)) N = 1.
Proof.
  induction k as [|k IH]; intros N HG HN.
  - simpl in *. lia.
  - rewrite Nat.iter_succ_r. apply IH; [exact HG|]. split.
    + apply work_group_count_pos; lia.
    + unfold work_group_count. rewrite Nat.pow_succ_r' in HN.
      apply Nat.lt_succ_r, Nat.Div0.div_lt_upper_bound.
      remember ((2 * G) ^ k) as P. nia.
Qed.

(** ** Two groups run in descending order *)

(** 1026 elements make two groups.  When the device runs group 1 first,
    group 0 loads the cell group 1 has written. *)
Lemma launch_descending_1026 :
  exists d',
    launch [1; 0] work_group_size 1026
           (Device (fill_arr 1026) (replicate work_group_size 0%Z) []) =
    Ok (tt, d') /\
    trace d' = group_events work_group_size 1026 1 ++
               group_events work_group_size 1026 0 /\
    global_mem d' !! 0 = Some 526849%Z.
Proof.
  change work_group_size with (2 ^ 9).
  set (B := fill_arr 1026).
  destruct (run_group_even 9 1026 1 (Device B (replicate (2 ^ 9) 0%Z) []))
    as (S1 & Hrun1 & HS1).
  - reflexivity.
  - cbn [global_mem]. unfold B. rewrite length_fill_arr. lia.
  - apply length_replicate.
  - vm_compute. lia.
  - cbn [global_mem trace app] in Hrun1.
    set (B1 := <[1 := group_sum (2 ^ 9) B 1026 1]> B) in *.
    destruct (run_group_even 9 1026 0
                (Device B1 S1 (group_events (2 ^ 9) 1026 1)))
      as (S0 & Hrun0 & _).
    + reflexivity.
    + cbn [global_mem]. unfold B1, B. rewrite length_insert, length_fill_arr. lia.
    + exact HS1.
    + vm_compute. lia.
    + cbn [global_mem trace] in Hrun0.
      eexists. split; [|split].
      * unfold launch. cbn [for_each].
        rewrite (kbind_ok _ _ _ _ _ Hrun1), (kbind_ok _ _ _ _ _ Hrun0).
        reflexivity.
      * reflexivity.
      * cbn [global_mem]. vm_compute. reflexivity.
Qed.

(** * The claims *)

(** C1: what the program prints for 1026 elements.  With [N = 1026] the
    array is [1..1026], whose sum is 526851.  The single launch has two
    groups: run in ascending order they leave 524800 in [B[0]], the sum
    of the first 1024 elements; run in descending order they leave
    526849.  Either value is printed as the sum. *)
Theorem reduce_prints_first_group_sum :
  int_wrap (sumZ (fill_arr 1026)) = 526851%Z /\
  main 1026 = Ok 524800%Z /\
  snd (main_with (fun _ => [1; 0]) 1026) = Ok 526849%Z.
Proof.
  split; [vm_compute; reflexivity|]. split.
  - unfold main.
    rewrite reduce_even by (rewrite length_fill_arr; first [reflexivity|lia]).
    vm_compute. reflexivity.
  - unfold main_with. rewrite reduce_with_eq. cbv beta zeta. cbn [snd].
    rewrite length_fill_arr.
    destruct launch_descending_1026 as (d' & Hrun & _ & H0).
    rewrite Hrun, H0. reflexivity.
Qed.

(** C2: the driver of the source has no loop.  Whatever the array, one
    kernel is submitted; for 1026 elements it is a launch of two groups,
    [iterationCount] becomes 2, no second launch follows and [B[0]],
    the first group's sum, is printed. *)
Theorem one_launch_whatever_the_length :
  (forall sched arr, length (submitted (fst (reduce_with sched arr))) = 1) /\
  submitted (fst (main_with in_order 1026)) = [(1024, 512)] /\
  iteration_count (fst (main_with in_order 1026)) = 2 /\
  snd (main_with in_order 1026) = Ok 524800%Z.
Proof.
  split; [|split; [|split]].
  - intros sched arr. reflexivity.
  - unfold main_with. rewrite reduce_with_eq. cbv zeta. cbn [fst submitted].
    rewrite length_fill_arr. reflexivity.
  - unfold main_with. rewrite reduce_with_eq. cbv zeta. cbn [fst iteration_count].
    rewrite length_fill_arr. reflexivity.
  - rewrite snd_main_with. unfold main.
    rewrite reduce_even by (rewrite length_fill_arr; first [reflexivity|lia]).
    vm_compute. reflexivity.
Qed.

(** C3: the load of the odd tail.  With [L = 7] the work-item with
    global id 3 has [2*g = L - 1]; it reads index 7 as well: outside a
    buffer of 7 elements, and in a longer buffer it adds [B[7]] to
    [B[6]] instead of loading [B[6]] alone. *)
Theorem odd_tail_load_reads_index_L :
  load_phase 7 (item_of work_group_size 0 3)
             (Device [0; 1; 2; 3; 4; 5; 6]%Z (replicate work_group_size 0%Z) []) =
  Err (GlobalOutOfRange 7) /\
  load_phase 7 (item_of work_group_size 0 3)
             (Device [0; 1; 2; 3; 4; 5; 6; 100]%Z (replicate work_group_size 0%Z) []) =
  Ok (tt, Device [0; 1; 2; 3; 4; 5; 6; 100]%Z
                 (<[3 := 106%Z]> (replicate work_group_size 0%Z))
                 [Load 3 6; Load 3 7]) /\
  main 7 = Err (GlobalOutOfRange 7).
Proof. repeat split; vm_compute; reflexivity. Qed.

(** C4: one sweep over an odd active length.  For the 7 elements
    [0..6], whose sum is 21, the launch reads index 7, outside the
    buffer, and leaves no defined contents behind. *)
Theorem odd_length_sweep_leaves_the_buffer :
  fill_arr 7 = [0; 1; 2; 3; 4; 5; 6]%Z /\
  sumZ (fill_arr 7) = 21%Z /\
  input_buf (fst (main_with in_order 7)) = Err (GlobalOutOfRange 7).
Proof. repeat split; vm_compute; reflexivity. Qed.

(** C5. In a group of [G = 2^k] work-items the stride loop runs its body
    for the strides [1, 2, 4, ..., G/2] in turn; for each of them the
    lanes with [index = 2*i*l < G] add [S[index + i]] into [S[index]]
    (the cells [stride_result] describes) and nothing goes out of the
    scratch; after the last stride [S[0]] is the wrapped sum of the [G]
    values the load left in the scratch, and the buffer is untouched. *)
Theorem tree_reduction_sums_group (k w : nat) (d : device)
    (Hlen : length (local_mem d) = 2 ^ k)
    (Hint : Forall is_int (local_mem d)) :
  (forall body d0,
      stride_loop (2 ^ k) (2 ^ k) 1 body d0 =
      for_each (map (Nat.pow 2) (seq 0 k)) body d0) /\
  (forall j d0, j < k -> length (local_mem d0) = 2 ^ k ->
      all_items (2 ^ k) w (stride_phase (2 ^ k) (2 ^ j)) d0 =
      Ok (tt, Device (global_mem d0) (stride_result (2 ^ j) (local_mem d0)) (trace d0))) /\
  exists S',
    stride_loop (2 ^ k) (2 ^ k) 1
                (fun i => all_items (2 ^ k) w (stride_phase (2 ^ k) i)) d =
    Ok (tt, Device (global_mem d) S' (trace d)) /\
    S' !! 0 = Some (int_wrap (sumZ (local_mem d))).
Proof.
  split; [|split].
  - intros body d0. apply stride_loop_strides.
  - intros j d0 Hj Hd0. apply stride_all_items.
    + exact Hd0.
    + apply Nat.neq_0_lt_0, Nat.pow_nonzero. lia.
    + replace k with ((k - S j) + S j) by lia.
      rewrite Nat.pow_add_r, <- Nat.pow_succ_r'. apply Nat.Div0.mod_mul.
  - destruct (tree_reduce_run k w d Hlen Hint) as (S' & Hrun & _ & H0).
    exists S'. split; assumption.
Qed.

Lemma tree_reduction_sums_group_witness :
  exists S',
    stride_loop 4 4 1 (fun i => all_items 4 0 (stride_phase 4 i))
                (Device [] [1; 2; 3; 4]%Z []) =
    Ok (tt, Device [] S' []) /\
    S' !! 0 = Some (int_wrap (sumZ [1; 2; 3; 4]%Z)).
Proof.
  refine (proj2 (proj2
    (tree_reduction_sums_group 2 0 (Device [] [1; 2; 3; 4]%Z []) _ _))).
  - reflexivity.
  - simpl. repeat constructor; unfold is_int; lia.
Defined.




(** C7: a single element.  For the array [[42]] the program still
    submits a kernel of one group of 512 work-items, whose work-item 0
    passes the guard [2*0 < 1] and reads index 1, outside the buffer;
    42 is not printed.  The same happens for the one-element array
    that [main] builds for [N = 1]. *)
Theorem singleton_is_launched :
  reduce_with in_order [42%Z] =
  (Host [(512, 512)] (Err (GlobalOutOfRange 1)) 1, Err (GlobalOutOfRange 1)) /\
  load_phase 1 (item_of work_group_size 0 0)
             (Device [42%Z] (replicate work_group_size 0%Z) []) =
  Err (GlobalOutOfRange 1) /\
  main 1 = Err (GlobalOutOfRange 1).
Proof. repeat split; vm_compute; reflexivity. Qed.


(** C9. When [2*g < L] the load reads both [2*g] and [2*g + 1], and when
    [2*g >= L] it reads nothing.  For an even active length [L] within
    the buffer, the kernel run by any group of the launch finishes
    without leaving the buffer; every access it makes comes from a
    work-item with [2*g < L] and has an index below [L]; and index
    [L - 1] is read by a work-item of the launch. *)
Theorem even_length_accesses_in_bounds (k L w : nat) (d : device)
    (Heven : Nat.even L = true)
    (HL : L <= length (global_mem d))
    (Hloc : length (local_mem d) = 2 ^ k)
    (Hw : w < work_group_count (2 * 2 ^ k) L) :
  (forall g, 2 * g < L -> load_events L g = [Load g (2 * g); Load g (2 * g + 1)]) /\
  (forall g, L <= 2 * g -> load_events L g = []) /\
  (exists S',
     run_group (2 ^ k) L w d =
     Ok (tt, Device (<[w := group_sum (2 ^ k) (global_mem d) L w]> (global_mem d))
                    S' (trace d ++ group_events (2 ^ k) L w))) /\
  (forall e, In e (group_events (2 ^ k) L w) ->
             2 * event_item e < L /\ event_index e < L) /\
  (exists w' l, w' < work_group_count (2 * 2 ^ k) L /\ l < 2 ^ k /\
                In (Load (w' * 2 ^ k + l) (L - 1)) (group_events (2 ^ k) L w')).
Proof.
  set (G := 2 ^ k) in *.
  assert (1 <= G) as HG by (apply Nat.neq_0_lt_0, Nat.pow_nonzero; lia).
  pose proof (group_starts_inside G L w HG Hw) as Hstart.
  split; [|split; [|split; [|split]]].
  - intros g Hg. unfold load_events. now rewrite (proj2 (Nat.ltb_lt _ _) Hg).
  - intros g Hg. unfold load_events. now rewrite (proj2 (Nat.ltb_ge _ _) Hg).
  - destruct (run_group_ok k L w d) as (S' & Hrun & _).
    + exact Hloc.
    + fold G. intros l Hl Hlt. pose proof (even_lt_succ _ _ Heven Hlt). lia.
    + nia.
    + exists S'. exact Hrun.
  - intros e He. apply group_events_in in He.
    destruct He as [(l & Hl & He)| ->].
    + apply load_events_in in He. destruct He as (Hlt & -> & He).
      pose proof (even_lt_succ _ _ Heven Hlt).
      destruct He as [-> | ->]; cbn [event_index]; lia.
    + cbn [event_item event_index]. nia.
  - apply Nat.even_spec in Heven. destruct Heven as [h ->].
    assert (1 <= h) as Hh by lia.
    exists ((h - 1) / G), ((h - 1) mod G).
    pose proof (Nat.Div0.div_mod (h - 1) G) as Hdm.
    pose proof (Nat.mod_upper_bound (h - 1) G ltac:(lia)) as Hmod.
    split; [|split].
    + unfold work_group_count.
      apply Nat.div_le_lower_bound; [lia|]. nia.
    + exact Hmod.
    + unfold group_events. apply in_or_app. left. apply in_flat_map.
      exists ((h - 1) mod G). split; [apply in_seq; lia|].
      replace ((h - 1) / G * G + (h - 1) mod G) with (h - 1) by lia.
      unfold load_events.
      assert ((2 * (h - 1) <? 2 * h) = true) as -> by (apply Nat.ltb_lt; lia).
      right. left. f_equal. lia.
Qed.

Lemma even_length_accesses_in_bounds_witness :
  2 * event_item (Load 1 3) < 4 /\ event_index (Load 1 3) < 4.
Proof.
  refine (proj1 (proj2 (proj2 (proj2
    (even_length_accesses_in_bounds 1 4 0
       (Device [1; 2; 3; 4]%Z [0; 0]%Z []) _ _ _ _)))) (Load 1 3) _).
  - reflexivity.
  - simpl. lia.
  - reflexivity.
  - vm_compute. lia.
  - simpl. tauto.
Defined.

(** C10. The program submits exactly one kernel, whatever the length of
    the array; when the array has an even number [N] of elements with
    [2 <= N <= 2 * 512], that launch leaves the wrapped sum of the array
    in [B[0]], which is what is printed, in whatever order the device
    runs the groups; for the array [1..8] of the source the program
    prints 36. *)
Theorem single_sweep_sums_small_even_input
    (sched : nat -> list nat) (arr : list Z)
    (Hsched : schedule_ok sched)
    (Heven : Nat.even (length arr) = true)
    (Hlen : 2 <= length arr <= 2 * work_group_size) :
  (forall sched' arr',
      submitted (fst (reduce_with sched' arr')) =
      [(work_group_size * work_group_count double_work_group_size (length arr'),
        work_group_size)]) /\
  input_buf (fst (reduce_with sched arr)) = Ok (<[0 := int_wrap (sumZ arr)]> arr) /\
  snd (reduce_with sched arr) = Ok (int_wrap (sumZ arr)) /\
  main 8 = Ok 36%Z.
Proof.
  split; [reflexivity|].
  assert (forall a, Nat.even (length a) = true ->
                    2 <= length a <= 2 * work_group_size ->
                    reduce a = Ok (int_wrap (sumZ a))) as Hsum.
  { intros a Ha Hla. rewrite reduce_even by (try assumption; lia).
    now rewrite take_ge by (unfold double_work_group_size; lia). }
  split; [|split].
  - rewrite reduce_with_single by (try assumption; lia).
    rewrite reduce_with_eq. cbv zeta. cbn [fst input_buf].
    change double_work_group_size with (2 * 2 ^ 9).
    change work_group_size with (2 ^ 9) in *.
    rewrite work_group_count_one by lia.
    destruct (run_group_ok 9 (length arr) 0 (Device arr (replicate (2 ^ 9) 0%Z) []))
      as (S' & Hrun & _).
    + apply length_replicate.
    + cbn [global_mem]. intros l Hl Hlt.
      pose proof (even_lt_succ _ _ Heven Hlt). lia.
    + cbn [global_mem]. lia.
    + unfold launch, in_order. cbn [seq for_each].
      rewrite (kbind_ok _ _ _ _ _ Hrun). unfold kret. cbn [global_mem].
      now rewrite group_sum_whole by (try assumption; lia).
  - rewrite reduce_with_single by (try assumption; lia).
    apply Hsum; assumption.
  - assert (2 <= length (fill_arr 8) <= 2 * work_group_size) as H8
      by (change (length (fill_arr 8)) with 8; unfold work_group_size; lia).
    unfold main. rewrite (Hsum (fill_arr 8) eq_refl H8). reflexivity.
Qed.

Lemma single_sweep_sums_small_even_input_witness :
  snd (reduce_with in_order [1; 2; 3; 4; 5; 6; 7; 8]%Z) =
  Ok (int_wrap (sumZ [1; 2; 3; 4; 5; 6; 7; 8]%Z)).
Proof.
  refine (proj1 (proj2 (proj2
    (single_sweep_sums_small_even_input
       in_order [1; 2; 3; 4; 5; 6; 7; 8]%Z _ _ _)))).
  - exact in_order_ok.
  - reflexivity.
  - unfold work_group_size. simpl. lia.
Defined.

(** * Further properties of the kernel and of the host code *)

(** ** What a finished run leaves unchanged *)

Lemma kbind_inv {A B} (m : kern A) (f : A -> kern B) d b d' :
  kbind m f d = Ok (b, d') ->
  exists a d1, m d = Ok (a, d1) /\ f a d1 = Ok (b, d').
Proof.
  unfold kbind. destruct (m d) as [[a d1]|e]; [|discriminate].
  intros H. exists a, d1. split; [reflexivity|exact H].
Qed.

Lemma same_buffer_refl d : same_buffer d d.
Proof. split; reflexivity. Qed.

Lemma same_buffer_trans a b c : same_buffer a b -> same_buffer b c -> same_buffer a c.
Proof. intros [H1 H2] [H3 H4]. split; congruence. Qed.

Lemma same_outside_refl ws d : same_outside ws d d.
Proof. split; [reflexivity|]. intros p _. reflexivity. Qed.

Lemma same_outside_trans ws a b c :
  same_outside ws a b -> same_outside ws b c -> same_outside ws a c.
Proof.
  intros [H1 H2] [H3 H4]. split; [congruence|].
  intros p Hp. rewrite H4, H2 by assumption. reflexivity.
Qed.

Lemma same_buffer_outside ws d d' : same_buffer d d' -> same_outside ws d d'.
Proof. intros [H _]. split; intros; now rewrite H. Qed.

Lemma for_each_rel {A} (R : device -> device -> Prop) (xs : list A) body :
  (forall d, R d d) ->
  (forall a b c, R a b -> R b c -> R a c) ->
  (forall x d d', In x xs -> body x d = Ok (tt, d') -> R d d') ->
  forall d d', for_each xs body d = Ok (tt, d') -> R d d'.
Proof.
  intros Hrefl Htrans. induction xs as [|x xs IH]; intros Hbody d d' Hrun.
  - injection Hrun as <-. apply Hrefl.
  - cbn [for_each] in Hrun. apply kbind_inv in Hrun.
    destruct Hrun as ([] & d1 & Hx & Hrest).
    apply (Htrans d d1 d').
    + apply (Hbody x); [now left|exact Hx].
    + apply IH; [|exact Hrest].
      intros y e e' Hy. apply Hbody. now right.
Qed.

Lemma lwrite_same idx v d d' : lwrite idx v d = Ok (tt, d') -> same_buffer d d'.
Proof.
  unfold lwrite. destruct (idx <? length (local_mem d)); [|discriminate].
  intros H. injection H as <-. split; [reflexivity|]. apply length_insert.
Qed.

Lemma gread_same g idx v d d' : gread g idx d = Ok (v, d') -> same_buffer d d'.
Proof.
  unfold gread. destruct (global_mem d !! idx); [|discriminate].
  intros H. injection H as _ <-. split; reflexivity.
Qed.

Lemma lread_same idx v d d' : lread idx d = Ok (v, d') -> d' = d.
Proof.
  unfold lread. destruct (local_mem d !! idx); [|discriminate].
  intros H. now injection H as _ <-.
Qed.

Lemma load_phase_same L item d d' :
  load_phase L item d = Ok (tt, d') -> same_buffer d d'.
Proof.
  unfold load_phase. intros H. apply kbind_inv in H.
  destruct H as ([] & d1 & H1 & H). apply lwrite_same in H1.
  apply (same_buffer_trans _ _ _ H1).
  destruct (2 * global_id item <? L).
  - apply kbind_inv in H. destruct H as (a & d2 & H2 & H).
    apply kbind_inv in H. destruct H as (b & d3 & H3 & H).
    apply gread_same in H2, H3. apply lwrite_same in H.
    eauto using same_buffer_trans.
  - injection H as <-. apply same_buffer_refl.
Qed.

Lemma stride_phase_same G i item d d' :
  stride_phase G i item d = Ok (tt, d') -> same_buffer d d'.
Proof.
  unfold stride_phase. cbv zeta. destruct (2 * i * local_id item <? G).
  - intros H. apply kbind_inv in H. destruct H as (a & d2 & H2 & H).
    apply kbind_inv in H. destruct H as (b & d3 & H3 & H).
    apply lread_same in H2, H3. subst. now apply lwrite_same in H.
  - intros H. injection H as <-. apply same_buffer_refl.
Qed.

Lemma stride_loop_same fuel : forall G w i d d',
  stride_loop fuel G i (fun i => all_items G w (stride_phase G i)) d = Ok (tt, d') ->
  same_buffer d d'.
Proof.
  induction fuel as [|fuel IH]; intros G w i d d'; cbn [stride_loop];
    destruct (i <? G).
  - discriminate.
  - intros H. injection H as <-. apply same_buffer_refl.
  - intros H. apply kbind_inv in H. destruct H as ([] & d1 & H1 & H).
    apply (same_buffer_trans _ d1).
    + revert H1. unfold all_items.
      apply (for_each_rel same_buffer);
        eauto using same_buffer_refl, same_buffer_trans, stride_phase_same.
    + eapply IH. exact H.
  - intros H. injection H as <-. apply same_buffer_refl.
Qed.

Lemma write_phase_outside G w l d d' :
  write_phase (item_of G w l) d = Ok (tt, d') -> same_outside [w] d d'.
Proof.
  unfold write_phase. cbn [local_id global_id group_id item_of].
  destruct (l =? 0).
  - intros H. apply kbind_inv in H. destruct H as (v & d1 & H1 & H).
    apply lread_same in H1. subst d1. revert H. unfold gwrite.
    destruct (w <? length (global_mem d)); [|discriminate].
    intros H. injection H as <-. cbn [global_mem]. split.
    + apply length_insert.
    + intros p Hp. apply list_lookup_insert_ne. intros ->. apply Hp. now left.
  - intros H. injection H as <-. apply same_outside_refl.
Qed.

(** A group that finishes has changed no cell of the buffer but,
    possibly, the one at its group id. *)
Lemma run_group_outside G L w d d' :
  run_group G L w d = Ok (tt, d') -> same_outside [w] d d'.
Proof.
  unfold run_group. intros H.
  apply kbind_inv in H. destruct H as ([] & d1 & H1 & H).
  apply kbind_inv in H. destruct H as ([] & d2 & H2 & H3).
  apply (same_outside_trans _ d d1); [|apply (same_outside_trans _ d1 d2)].
  - apply same_buffer_outside. revert H1. unfold all_items.
    apply (for_each_rel same_buffer);
      eauto using same_buffer_refl, same_buffer_trans, load_phase_same.
  - apply same_buffer_outside. eapply stride_loop_same. exact H2.
  - revert H3. unfold all_items.
    apply (for_each_rel (same_outside [w]));
      eauto using same_outside_refl, same_outside_trans, write_phase_outside.
Qed.

(** X1. A launch that finishes, for any group size, active length and
    order of the groups, keeps the size of the buffer and changes no
    cell whose index is not the id of one of its groups; under any
    schedule of [W] groups the cells from index [W] on are as before. *)
Theorem finished_launch_changes_group_cells_only
    (order : list nat) (G L : nat) (d d' : device)
    (Hrun : launch order G L d = Ok (tt, d')) :
  length (global_mem d') = length (global_mem d) /\
  (forall p, ~ In p order -> global_mem d' !! p = global_mem d !! p) /\
  (forall sched W, schedule_ok sched -> order = sched W ->
     forall p, W <= p -> global_mem d' !! p = global_mem d !! p).
Proof.
  assert (same_outside order d d') as [Hlen Hout].
  { revert Hrun. unfold launch.
    apply (for_each_rel (same_outside order));
      eauto using same_outside_refl, same_outside_trans.
    intros w e e' Hw Hgo. apply run_group_outside in Hgo.
    destruct Hgo as [Hl Ho]. split; [exact Hl|].
    intros p Hp. apply Ho. intros [<-|[]]. now apply Hp. }
  split; [exact Hlen|]. split; [exact Hout|].
  intros sched W Hs -> p Hp. apply Hout. intros Hin.
  apply (Permutation_in _ (Hs W)) in Hin. apply in_seq in Hin. lia.
Qed.

Lemma finished_launch_changes_group_cells_only_witness :
  length (global_mem (Device [10; 2; 3; 4]%Z [10; 7]%Z
                        [Load 0 0; Load 0 1; Load 1 2; Load 1 3; Store 0 0])) =
  length (global_mem (Device [1; 2; 3; 4]%Z [0; 0]%Z [])).
Proof.
  refine (proj1 (finished_launch_changes_group_cells_only [0] 2 4
                   (Device [1; 2; 3; 4]%Z [0; 0]%Z []) _ _)).
  vm_compute. reflexivity.
Defined.

(** X2. The local accessor is not initialised by the kernel's caller:
    whenever the pair-loads of a group are within the buffer, the whole
    outcome of the group's run (buffer, scratch, accesses, or the
    error) is the same for any two initial contents of the scratch. *)
Theorem scratch_contents_do_not_matter
    (G L w : nat) (B S1 S2 : list Z) (tr : list event)
    (H1 : length S1 = G) (H2 : length S2 = G)
    (Hin : forall l, l < G -> 2 * (w * G + l) < L ->
                     2 * (w * G + l) + 1 < length B) :
  run_group G L w (Device B S1 tr) = run_group G L w (Device B S2 tr).
Proof.
  unfold run_group.
  rewrite (kbind_ok _ _ _ _ _ (load_all_items G L w (Device B S1 tr) H1 Hin)).
  rewrite (kbind_ok _ _ _ _ _ (load_all_items G L w (Device B S2 tr) H2 Hin)).
  reflexivity.
Qed.

Lemma scratch_contents_do_not_matter_witness :
  run_group 2 4 0 (Device [1; 2; 3; 4]%Z [0; 0]%Z []) =
  run_group 2 4 0 (Device [1; 2; 3; 4]%Z [5; 9]%Z []).
Proof.
  refine (scratch_contents_do_not_matter 2 4 0 [1; 2; 3; 4]%Z
            [0; 0]%Z [5; 9]%Z [] _ _ _).
  - reflexivity.
  - reflexivity.
  - intros l Hl Hlt. simpl. lia.
Defined.

(** X3. One sweep over an even active length [L] within the buffer, with
    groups of [2^k] work-items run in ascending order: it finishes, the
    cell [w] of each of the [W] groups holds the wrapped sum of the
    slice [[2wG, 2(w+1)G)] of the active prefix, the cells from [W] on
    are untouched, and the accesses are those of the groups in turn. *)
Theorem in_order_sweep_writes_slice_sums
    (k L : nat) (B S : list Z) (tr : list event)
    (Heven : Nat.even L = true) (HL : L <= length B) (HS : length S = 2 ^ k) :
  exists d',
    launch (in_order (work_group_count (2 * 2 ^ k) L)) (2 ^ k) L (Device B S tr) =
    Ok (tt, d') /\
    length (global_mem d') = length B /\
    (forall w, w < work_group_count (2 * 2 ^ k) L ->
       global_mem d' !! w =
       Some (int_wrap (segment_sum (take L B) (2 * w * 2 ^ k) (2 * 2 ^ k)))) /\
    (forall p, work_group_count (2 * 2 ^ k) L <= p -> global_mem d' !! p = B !! p) /\
    trace d' = tr ++ flat_map (group_events (2 ^ k) L)
                              (in_order (work_group_count (2 * 2 ^ k) L)).
Proof.
  destruct (launch_in_order k L B S tr Heven HL HS)
    as (d' & Hrun & Hlen & Hdone & Hrest & Htr).
  exists d'. repeat split; try assumption.
  intros w Hw. rewrite (Hdone w Hw). f_equal. now apply group_sum_slice.
Qed.

Lemma in_order_sweep_writes_slice_sums_witness :
  exists d',
    launch (in_order (work_group_count (2 * 2 ^ 1) 8)) (2 ^ 1) 8
           (Device [1; 2; 3; 4; 5; 6; 7; 8]%Z [0; 0]%Z []) = Ok (tt, d') /\
    length (global_mem d') = length [1; 2; 3; 4; 5; 6; 7; 8]%Z /\
    (forall w, w < work_group_count (2 * 2 ^ 1) 8 ->
       global_mem d' !! w =
       Some (int_wrap (segment_sum (take 8 [1; 2; 3; 4; 5; 6; 7; 8]%Z)
                                   (2 * w * 2 ^ 1) (2 * 2 ^ 1)))) /\
    (forall p, work_group_count (2 * 2 ^ 1) 8 <= p ->
       global_mem d' !! p = [1; 2; 3; 4; 5; 6; 7; 8]%Z !! p) /\
    trace d' = [] ++ flat_map (group_events (2 ^ 1) 8)
                              (in_order (work_group_count (2 * 2 ^ 1) 8)).
Proof.
  refine (in_order_sweep_writes_slice_sums 1 8 [1; 2; 3; 4; 5; 6; 7; 8]%Z
            [0; 0]%Z [] _ _ _).
  - reflexivity.
  - simpl. lia.
  - reflexivity.
Defined.

(** X4. Such a sweep preserves the total: the wrapped sum of the [W]
    partial sums it leaves at the front of the buffer is the wrapped
    sum of the [L] elements of the active prefix. *)
Theorem in_order_sweep_preserves_total
    (k L : nat) (B S : list Z) (tr : list event)
    (Heven : Nat.even L = true) (HL : L <= length B) (HS : length S = 2 ^ k) :
  exists d',
    launch (in_order (work_group_count (2 * 2 ^ k) L)) (2 ^ k) L (Device B S tr) =
    Ok (tt, d') /\
    int_wrap (sumZ (take (work_group_count (2 * 2 ^ k) L) (global_mem d'))) =
    int_wrap (sumZ (take L B)).
Proof. now apply launch_in_order_preserves_sum. Qed.

Lemma in_order_sweep_preserves_total_witness :
  exists d',
    launch (in_order (work_group_count (2 * 2 ^ 1) 8)) (2 ^ 1) 8
           (Device [1; 2; 3; 4; 5; 6; 7; 8]%Z [0; 0]%Z []) = Ok (tt, d') /\
    int_wrap (sumZ (take (work_group_count (2 * 2 ^ 1) 8) (global_mem d'))) =
    int_wrap (sumZ (take 8 [1; 2; 3; 4; 5; 6; 7; 8]%Z)).
Proof.
  refine (in_order_sweep_preserves_total 1 8 [1; 2; 3; 4; 5; 6; 7; 8]%Z
            [0; 0]%Z [] _ _ _).
  - reflexivity.
  - simpl. lia.
  - reflexivity.
Defined.

(** ** The arrays that [main] builds *)

Lemma fill_arr_even N :
  Nat.even N = true -> fill_arr N = map (fun i => (Z.of_nat i + 1)%Z) (seq 0 N).
Proof. intros H. unfold fill_arr. now rewrite H. Qed.

Lemma fill_arr_odd N :
  Nat.even N = false -> fill_arr N = map Z.of_nat (seq 0 N).
Proof. intros H. unfold fill_arr. now rewrite H. Qed.

Lemma double_sumZ_one_to n :
  (2 * sumZ (map (fun i => Z.of_nat i + 1) (seq 0 n)) =
   Z.of_nat n * (Z.of_nat n + 1))%Z.
Proof.
  induction n as [|n IH]; [reflexivity|].
  rewrite seq_S, map_app, sumZ_app. cbn [Nat.add map].
  unfold sumZ at 2. cbn [foldr].
  set (s := sumZ _) in *. clearbody s. rewrite Nat2Z.inj_succ. nia.
Qed.

Lemma sumZ_one_to n :
  sumZ (map (fun i => (Z.of_nat i + 1)%Z) (seq 0 n)) =
  (Z.of_nat n * (Z.of_nat n + 1) / 2)%Z.
Proof.
  rewrite <- double_sumZ_one_to, (Z.mul_comm 2).
  rewrite Z.div_mul; [reflexivity|discriminate].
Qed.

Lemma double_sumZ_zero_to n :
  (2 * sumZ (map Z.of_nat (seq 0 n)) + 2 * Z.of_nat n =
   Z.of_nat n * (Z.of_nat n + 1))%Z.
Proof.
  induction n as [|n IH]; [reflexivity|].
  rewrite seq_S, map_app, sumZ_app. cbn [Nat.add map].
  unfold sumZ at 2. cbn [foldr].
  set (s := sumZ _) in *. clearbody s. rewrite Nat2Z.inj_succ. nia.
Qed.

Lemma take_fill_arr_even n N :
  Nat.even N = true ->
  take n (fill_arr N) = map (fun i => (Z.of_nat i + 1)%Z) (seq 0 (n `min` N)).
Proof.
  intros H. rewrite (fill_arr_even N H).
  change (map ?f ?l) with (f <$> l). now rewrite <- fmap_take, take_seq.
Qed.

(** X5. For every array with an even number of elements, at least two,
    the program (groups in ascending order) prints the wrapped sum of
    the first 1024 elements: the whole sum when there are at most 1024,
    and nothing of the elements from index 1024 on otherwise. *)
Theorem even_length_prints_first_block_sum
    (arr : list Z)
    (Heven : Nat.even (length arr) = true) (Hlen : 2 <= length arr) :
  reduce arr = Ok (int_wrap (sumZ (take 1024 arr))) /\
  (length arr <= 1024 -> reduce arr = Ok (int_wrap (sumZ arr))) /\
  (forall tl, Nat.even (length tl) = true -> 1024 <= length arr ->
              reduce (arr ++ tl) = reduce arr).
Proof.
  split; [now apply reduce_even|]. split.
  - intros Hle. rewrite reduce_even by assumption.
    now rewrite take_ge by (unfold double_work_group_size, work_group_size; lia).
  - intros tl Htl Hge.
    assert (Nat.even (length (arr ++ tl)) = true) as Heven'
      by (rewrite length_app, Nat.even_add, Heven, Htl; reflexivity).
    assert (2 <= length (arr ++ tl)) as Hlen' by (rewrite length_app; lia).
    rewrite (reduce_even arr Heven Hlen), (reduce_even _ Heven' Hlen').
    unfold double_work_group_size, work_group_size.
    now rewrite take_app_le by lia.
Qed.

Lemma even_length_prints_first_block_sum_witness :
  reduce [3; 4]%Z = Ok (int_wrap (sumZ (take 1024 [3; 4]%Z))).
Proof.
  refine (proj1 (even_length_prints_first_block_sum [3; 4]%Z _ _)).
  - reflexivity.
  - simpl. lia.
Defined.

(** X6. For every even [N >= 2] on line 34 the program (groups in
    ascending order) prints [m * (m + 1) / 2] for [m = min N 1024]: the
    sum [N * (N + 1) / 2] of the array [1..N] as long as [N <= 1024],
    and 524800 for every larger even [N]. *)
Theorem main_even_closed_form (N : nat)
    (Heven : Nat.even N = true) (HN : 2 <= N) :
  main N = Ok (Z.of_nat (N `min` 1024) * (Z.of_nat (N `min` 1024) + 1) / 2)%Z /\
  (N <= 1024 -> main N = Ok (sumZ (fill_arr N))) /\
  (1024 <= N -> main N = Ok 524800%Z).
Proof.
  assert (main N = Ok (Z.of_nat (N `min` 1024) * (Z.of_nat (N `min` 1024) + 1) / 2)%Z)
    as Hmain.
  { unfold main. rewrite reduce_even by (rewrite length_fill_arr; assumption).
    unfold double_work_group_size, work_group_size.
    change (512 * 2) with 1024.
    rewrite (take_fill_arr_even 1024 N Heven), Nat.min_comm, sumZ_one_to.
    f_equal. apply int_wrap_id. unfold is_int.
    pose proof (double_sumZ_one_to (N `min` 1024)) as Hd.
    rewrite sumZ_one_to in Hd.
    assert (Z.of_nat (N `min` 1024) <= 1024)%Z by lia.
    assert (0 <= Z.of_nat (N `min` 1024))%Z by lia.
    nia. }
  split; [exact Hmain|]. split.
  - intros Hle. rewrite Hmain, (fill_arr_even N Heven), sumZ_one_to.
    now rewrite Nat.min_l by exact Hle.
  - intros Hge. rewrite Hmain, Nat.min_r by exact Hge. reflexivity.
Qed.

Lemma main_even_closed_form_witness :
  main 8 = Ok (Z.of_nat (8 `min` 1024) * (Z.of_nat (8 `min` 1024) + 1) / 2)%Z.
Proof.
  refine (proj1 (main_even_closed_form 8 _ _)).
  - reflexivity.
  - lia.
Defined.

(** ** Odd active lengths *)

Lemma kbind_err {A B} (m : kern A) (f : A -> kern B) d e :
  m d = Err e -> kbind m f d = Err e.
Proof. intros H. unfold kbind. now rewrite H. Qed.

Lemma for_each_app {A} (xs ys : list A) body d :
  for_each (xs ++ ys) body d = (for_each xs body ;; for_each ys body) d.
Proof.
  revert d. induction xs as [|x xs IH]; intros d; simpl.
  - reflexivity.
  - unfold kbind in *. destruct (body x d) as [[[] d1]|e]; [|reflexivity].
    apply IH.
Qed.

(** A loop stops at the first element whose body fails. *)
Lemma for_each_stops {A} (xs ys : list A) x body d d1 e :
  for_each xs body d = Ok (tt, d1) -> body x d1 = Err e ->
  for_each (xs ++ x :: ys) body d = Err e.
Proof.
  intros Hxs Hx. rewrite for_each_app, (kbind_ok _ _ _ _ _ Hxs).
  cbn [for_each]. now apply kbind_err.
Qed.

Lemma seq_split_at n l : l < n -> seq 0 n = seq 0 l ++ l :: seq (S l) (n - S l).
Proof.
  intros Hl. replace n with (l + S (n - S l)) at 1 by lia.
  rewrite seq_app. reflexivity.
Qed.

Lemma load_lanes_prefix G L w n d :
  n <= G -> length (local_mem d) = G ->
  (forall l, l < n -> 2 * (w * G + l) < L ->
             2 * (w * G + l) + 1 < length (global_mem d)) ->
  exists d',
    for_each (seq 0 n) (fun l => load_phase L (item_of G w l)) d = Ok (tt, d') /\
    global_mem d' = global_mem d /\ length (local_mem d') = G.
Proof.
  intros Hn Hloc Hin.
  destruct (for_each_inv
    (fun _ d0 => global_mem d0 = global_mem d /\ length (local_mem d0) = G)
    (seq 0 n) (fun l => load_phase L (item_of G w l)) d) as (d' & Hrun & HI).
  - split; [reflexivity|exact Hloc].
  - intros j l d0 Hj (HB & Hlen0).
    apply lookup_seq in Hj. destruct Hj as [-> Hj]. cbn [Nat.add].
    eexists. split.
    + apply load_phase_run; [lia|]. rewrite HB. now apply Hin.
    + cbn [global_mem local_mem]. split; [exact HB|].
      now rewrite length_insert.
  - exists d'. split; [exact Hrun|exact HI].
Qed.

(** The group that holds the last element of an odd active length that
    fills the buffer stops in its load phase, at index [L]. *)
Lemma run_group_odd G L w l0 d :
  l0 < G -> 2 * (w * G + l0) + 1 = L ->
  length (global_mem d) = L -> length (local_mem d) = G ->
  run_group G L w d = Err (GlobalOutOfRange L).
Proof.
  intros Hl0 Hlast HB Hloc. unfold run_group. apply kbind_err.
  unfold all_items. rewrite (seq_split_at G l0 Hl0).
  destruct (load_lanes_prefix G L w l0 d) as (d1 & Hrun & HB1 & Hloc1);
    [lia|exact Hloc|intros; lia|].
  apply (for_each_stops _ _ _ _ _ d1); [exact Hrun|].
  apply load_phase_odd_tail; [exact Hlast|congruence|lia].
Qed.

Lemma launch_in_order_odd k L B S tr :
  Nat.odd L = true -> length B = L -> length S = 2 ^ k ->
  launch (in_order (work_group_count (2 * 2 ^ k) L)) (2 ^ k) L (Device B S tr) =
  Err (GlobalOutOfRange L).
Proof.
  intros Hodd HB HS. apply Nat.odd_spec in Hodd. destruct Hodd as [h Hh].
  set (G := 2 ^ k) in *.
  assert (1 <= G) as HG by (apply Nat.neq_0_lt_0, Nat.pow_nonzero; lia).
  pose proof (Nat.Div0.div_mod h G) as Hdm.
  pose proof (Nat.mod_upper_bound h G ltac:(lia)) as Hmod.
  set (w0 := h / G) in *. set (l0 := h mod G) in *.
  assert (w0 < work_group_count (2 * G) L) as Hw0.
  { unfold work_group_count. apply Nat.div_le_lower_bound; [lia|]. nia. }
  unfold launch, in_order. rewrite (seq_split_at _ w0 Hw0).
  destruct (for_each_inv
    (fun _ d0 => length (local_mem d0) = G /\ length (global_mem d0) = L)
    (seq 0 w0) (run_group G L) (Device B S tr)) as (d1 & Hrun & Hloc1 & HB1).
  - split; assumption.
  - intros i j d0 Hj (Hloc0 & HB0).
    apply lookup_seq in Hj. destruct Hj as [-> Hj]. cbn [Nat.add].
    destruct (run_group_ok k L i d0) as (S' & Hgo & HS').
    + exact Hloc0.
    + fold G. intros l Hl _. rewrite HB0. nia.
    + rewrite HB0. nia.
    + fold G in Hgo, HS'. eexists. split; [exact Hgo|].
      cbn [global_mem local_mem]. split; [exact HS'|].
      now rewrite length_insert.
  - apply (for_each_stops _ _ _ _ _ d1); [exact Hrun|].
    apply (run_group_odd G L w0 l0); try assumption. lia.
Qed.

Lemma reduce_odd arr :
  Nat.odd (length arr) = true -> reduce arr = Err (GlobalOutOfRange (length arr)).
Proof.
  intros Hodd. unfold reduce. rewrite reduce_with_eq. cbv zeta. cbn [snd].
  change double_work_group_size with (2 * 2 ^ 9).
  change work_group_size with (2 ^ 9).
  rewrite launch_in_order_odd; [reflexivity|exact Hodd|reflexivity|].
  apply length_replicate.
Qed.

(** X7. For every array with an odd number of elements the program
    (groups in ascending order) reads index [N], one past the end of
    the buffer, and prints no sum; with at most 1024 elements this holds
    in whatever order the device runs the groups, and it is what
    happens for every odd [N] on line 34. *)
Theorem odd_length_reads_past_the_end (arr : list Z)
    (Hodd : Nat.odd (length arr) = true) :
  reduce arr = Err (GlobalOutOfRange (length arr)) /\
  (forall sched, schedule_ok sched -> length arr <= 1024 ->
     snd (reduce_with sched arr) = Err (GlobalOutOfRange (length arr))) /\
  main (length arr) = Err (GlobalOutOfRange (length arr)).
Proof.
  split; [now apply reduce_odd|]. split.
  - intros sched Hs Hle.
    assert (1 <= length arr) by (destruct arr; [discriminate|simpl; lia]).
    rewrite reduce_with_single
      by (try assumption; unfold work_group_size; lia).
    now apply reduce_odd.
  - unfold main.
    rewrite <- (length_fill_arr (length arr)) at 2.
    apply reduce_odd. now rewrite length_fill_arr.
Qed.

Lemma odd_length_reads_past_the_end_witness :
  reduce [5; 6; 7]%Z = Err (GlobalOutOfRange (length [5; 6; 7]%Z)).
Proof.
  refine (proj1 (odd_length_reads_past_the_end [5; 6; 7]%Z _)).
  reflexivity.
Defined.

(** X8. Whatever the parity of [N], the array the program displays is
    [1, 2, ..., N].  For an even [N] that is the array it sums; for an
    odd [N] the array it sums is [0, 1, ..., N-1], so the displayed
    numbers add up to [N] more than the elements of the buffer. *)
Theorem displayed_is_one_to_N (N : nat) :
  displayed N = map (fun i => (Z.of_nat i + 1)%Z) (seq 0 N) /\
  fill_arr N = (if Nat.even N then displayed N else map Z.of_nat (seq 0 N)) /\
  sumZ (displayed N) =
  (sumZ (fill_arr N) + (if Nat.even N then 0 else Z.of_nat N))%Z.
Proof.
  unfold displayed. destruct (Nat.even N) eqn:Heven.
  - rewrite (fill_arr_even N Heven), map_id.
    repeat split. lia.
  - rewrite (fill_arr_odd N Heven), map_map.
    repeat split.
    pose proof (double_sumZ_one_to N). pose proof (double_sumZ_zero_to N). lia.
Qed.

(** ** Permutations and concatenations of small even arrays *)

Lemma reduce_with_small_even sched arr :
  schedule_ok sched -> Nat.even (length arr) = true ->
  2 <= length arr <= 1024 ->
  snd (reduce_with sched arr) = Ok (int_wrap (sumZ arr)).
Proof.
  intros Hs Heven Hlen.
  rewrite reduce_with_single by (try assumption; unfold work_group_size; lia).
  fold (reduce arr). rewrite reduce_even by (try assumption; lia).
  now rewrite take_ge by (unfold double_work_group_size, work_group_size; lia).
Qed.

Lemma sumZ_Permutation l l' : Permutation l l' -> sumZ l = sumZ l'.
Proof.
  unfold sumZ. induction 1; cbn [foldr]; lia.
Qed.

(** X9. For arrays with an even number of elements, between 2 and
    1024, the printed sum depends neither on the order of the elements
    nor on the order in which the device runs the groups. *)
Theorem small_even_sum_ignores_order
    (sched sched' : nat -> list nat) (arr arr' : list Z)
    (Hs : schedule_ok sched) (Hs' : schedule_ok sched')
    (Hperm : Permutation arr arr')
    (Heven : Nat.even (length arr) = true)
    (Hlen : 2 <= length arr <= 1024) :
  snd (reduce_with sched arr) = snd (reduce_with sched' arr').
Proof.
  pose proof (Permutation_length Hperm) as Hl.
  rewrite !reduce_with_small_even by (try assumption; rewrite <- ?Hl; assumption).
  now rewrite (sumZ_Permutation _ _ Hperm).
Qed.

Lemma small_even_sum_ignores_order_witness :
  snd (reduce_with in_order [1; 2; 3; 4]%Z) =
  snd (reduce_with in_order [2; 1; 3; 4]%Z).
Proof.
  refine (small_even_sum_ignores_order in_order in_order
            [1; 2; 3; 4]%Z [2; 1; 3; 4]%Z _ _ _ _ _).
  - exact in_order_ok.
  - exact in_order_ok.
  - apply perm_swap.
  - reflexivity.
  - simpl. lia.
Defined.

(** X10. The printed sum is additive over concatenation, with the
    kernel's wrap-around: for two arrays of even lengths, at least 2
    each and at most 1024 together, the sum printed for their
    concatenation is the [int] sum of the two sums printed for them. *)
Theorem small_even_sum_of_concatenation
    (arr1 arr2 : list Z)
    (Heven1 : Nat.even (length arr1) = true)
    (Heven2 : Nat.even (length arr2) = true)
    (Hlen1 : 2 <= length arr1) (Hlen2 : 2 <= length arr2)
    (Hlen : length arr1 + length arr2 <= 1024) :
  exists v1 v2,
    reduce arr1 = Ok v1 /\ reduce arr2 = Ok v2 /\
    reduce (arr1 ++ arr2) = Ok (int_add v1 v2).
Proof.
  exists (int_wrap (sumZ arr1)), (int_wrap (sumZ arr2)).
  assert (Nat.even (length (arr1 ++ arr2)) = true) as Heven
    by (rewrite length_app, Nat.even_add, Heven1, Heven2; reflexivity).
  assert (2 <= length (arr1 ++ arr2) <= 1024) as Hl by (rewrite length_app; lia).
  unfold reduce.
  rewrite (reduce_with_small_even in_order arr1 in_order_ok Heven1) by lia.
  rewrite (reduce_with_small_even in_order arr2 in_order_ok Heven2) by lia.
  rewrite (reduce_with_small_even in_order _ in_order_ok Heven Hl).
  repeat split. now rewrite sumZ_app, int_add_wrap.
Qed.

Lemma small_even_sum_of_concatenation_witness :
  exists v1 v2,
    reduce [1; 2]%Z = Ok v1 /\ reduce [3; 4]%Z = Ok v2 /\
    reduce ([1; 2] ++ [3; 4])%Z = Ok (int_add v1 v2).
Proof.
  refine (small_even_sum_of_concatenation [1; 2]%Z [3; 4]%Z _ _ _ _ _).
  - reflexivity.
  - reflexivity.
  - simpl. lia.
  - simpl. lia.
  - simpl. lia.
Defined.

(** ** A work-group size that is not a power of two *)

Lemma stride_lanes_prefix G i w n d :
  length (local_mem d) = G ->
  (forall l, l < n -> 2 * i * l + i < G) ->
  exists d',
    for_each (seq 0 n) (fun l => stride_phase G i (item_of G w l)) d = Ok (tt, d') /\
    global_mem d' = global_mem d /\ trace d' = trace d /\
    length (local_mem d') = G.
Proof.
  intros Hloc Hin.
  destruct (for_each_inv
    (fun _ d0 => global_mem d0 = global_mem d /\ trace d0 = trace d /\
                 length (local_mem d0) = G)
    (seq 0 n) (fun l => stride_phase G i (item_of G w l)) d) as (d' & Hrun & HI).
  - repeat split. exact Hloc.
  - intros j l d0 Hj (HB & Htr & Hlen0).
    apply lookup_seq in Hj. destruct Hj as [-> Hj]. cbn [Nat.add].
    specialize (Hin j Hj).
    destruct (lookup_lt_is_Some_2 (local_mem d0) (2 * i * j)) as [a Ha]; [lia|].
    destruct (lookup_lt_is_Some_2 (local_mem d0) (2 * i * j + i)) as [b Hb]; [lia|].
    eexists. split.
    + apply (stride_phase_active G i w j a b); [lia|exact Ha|exact Hb].
    + cbn [global_mem local_mem trace]. repeat split; try assumption.
      now rewrite length_insert.
  - exists d'. split; [exact Hrun|exact HI].
Qed.

(** When [G = i * m] for an odd [m >= 3], the stride-[i] phase reads
    [local_mem[G]]: lane [(m - 1) / 2] has [index = G - i]. *)
Lemma stride_phase_leaves_scratch G i m w d :
  0 < i -> G = i * m -> Nat.odd m = true -> 3 <= m ->
  length (local_mem d) = G ->
  all_items G w (stride_phase G i) d = Err (LocalOutOfRange G).
Proof.
  intros Hi HG Hodd Hm Hloc.
  apply Nat.odd_spec in Hodd. destruct Hodd as [l0 Hl0].
  assert (l0 < G) as Hlt by nia.
  unfold all_items. rewrite (seq_split_at G l0 Hlt).
  destruct (stride_lanes_prefix G i w l0 d Hloc) as (d1 & Hrun & _ & _ & Hloc1).
  - intros l Hl. nia.
  - apply (for_each_stops _ _ _ _ _ d1); [exact Hrun|].
    unfold stride_phase. cbn [local_id item_of].
    assert (2 * i * l0 < G) as Hidx by nia.
    rewrite (proj2 (Nat.ltb_lt _ _) Hidx).
    destruct (lookup_lt_is_Some_2 (local_mem d1) (2 * i * l0)) as [a Ha]; [lia|].
    rewrite (kbind_ok _ _ _ _ _ (lread_ok _ _ _ Ha)).
    apply kbind_err. replace (2 * i * l0 + i) with G by nia.
    unfold lread. now rewrite lookup_ge_None_2 by lia.
Qed.

Lemma stride_loop_leaves_scratch m w : forall j G i fuel d,
  0 < i -> G = i * 2 ^ j * m -> Nat.odd m = true -> 3 <= m -> j < fuel ->
  length (local_mem d) = G ->
  stride_loop fuel G i (fun i => all_items G w (stride_phase G i)) d =
  Err (LocalOutOfRange G).
Proof.
  induction j as [|j IH]; intros G i fuel d Hi HG Hodd Hm Hfuel Hloc;
    (destruct fuel as [|fuel]; [lia|]).
  - rewrite Nat.pow_0_r, Nat.mul_1_r in HG.
    assert (i < G) as Hlt by nia.
    cbn [stride_loop]. rewrite (proj2 (Nat.ltb_lt _ _) Hlt).
    apply kbind_err. now apply (stride_phase_leaves_scratch G i m).
  - assert (0 < 2 ^ j) as Hpos by (apply Nat.neq_0_lt_0, Nat.pow_nonzero; lia).
    rewrite Nat.pow_succ_r' in HG.
    assert (1 <= 2 ^ j * m) as Hq by nia.
    assert (G = 2 * i * (2 ^ j * m)) as HG' by (rewrite HG; lia).
    assert (i < G) as Hlt by nia.
    cbn [stride_loop]. rewrite (proj2 (Nat.ltb_lt _ _) Hlt).
    assert (G mod (2 * i) = 0) as Hmod.
    { rewrite HG. replace (i * (2 * 2 ^ j) * m) with (2 ^ j * m * (2 * i)) by lia.
      apply Nat.Div0.mod_mul. }
    rewrite (kbind_ok _ _ _ _ _ (stride_all_items G i w d Hloc Hi Hmod)).
    apply IH; try assumption; try lia.
    cbn [local_mem]. unfold stride_result. now rewrite length_imap.
Qed.

(** Every size that is not a power of two is [2^j * m] for an odd
    [m >= 3]. *)
Lemma not_power_of_two_odd_factor G :
  1 <= G -> (forall k, G <> 2 ^ k) ->
  exists j m, G = 2 ^ j * m /\ Nat.odd m = true /\ 3 <= m.
Proof.
  induction G as [G IH] using lt_wf_ind. intros HG Hnp.
  destruct (Nat.even G) eqn:Heven.
  - apply Nat.even_spec in Heven. destruct Heven as [G' ->].
    destruct (IH G') as (j & m & -> & Hodd & Hm); [lia|lia| |].
    + intros k ->. apply (Hnp (S k)). now rewrite Nat.pow_succ_r'.
    + exists (S j), m. rewrite Nat.pow_succ_r'. repeat split; try assumption. lia.
  - exists 0, G. cbn [Nat.pow]. rewrite <- Nat.negb_even, Heven.
    repeat split; [lia|].
    destruct (decide (G = 1)) as [->|]; [exfalso; now apply (Hnp 0)|].
    destruct (decide (G = 2)) as [->|]; [discriminate|lia].
Qed.

(** X11. The stride loop stays within the scratch only for a power of
    two: for a work-group size [G = 2^j * m] with [m] odd, [m >= 3]
    (every size that is not a power of two), the strides
    [1, ..., 2^(j-1)] pass and the stride [i = 2^j] reads
    [local_mem[G]], one past the local accessor; the kernel stops there
    whenever its loads were within the buffer. *)
Theorem stride_loop_needs_power_of_two
    (G j m w : nat) (d : device)
    (HG : G = 2 ^ j * m) (Hodd : Nat.odd m = true) (Hm : 3 <= m)
    (Hloc : length (local_mem d) = G) :
  stride_loop G G 1 (fun i => all_items G w (stride_phase G i)) d =
  Err (LocalOutOfRange G) /\
  (forall L,
     (forall l, l < G -> 2 * (w * G + l) < L ->
                2 * (w * G + l) + 1 < length (global_mem d)) ->
     run_group G L w d = Err (LocalOutOfRange G)) /\
  (forall G', 1 <= G' -> (forall k, G' <> 2 ^ k) ->
     exists j' m', G' = 2 ^ j' * m' /\ Nat.odd m' = true /\ 3 <= m').
Proof.
  assert (j < G) as Hfuel.
  { rewrite HG. pose proof (pow2_gt j). nia. }
  split; [|split].
  - apply (stride_loop_leaves_scratch m w j); try assumption; lia.
  - intros L Hin. unfold run_group.
    rewrite (kbind_ok _ _ _ _ _ (load_all_items G L w d Hloc Hin)).
    apply kbind_err.
    apply (stride_loop_leaves_scratch m w j); try assumption; try lia.
    cbn [local_mem]. now rewrite length_map, length_seq.
  - apply not_power_of_two_odd_factor.
Qed.

Lemma stride_loop_needs_power_of_two_witness :
  stride_loop 6 6 1 (fun i => all_items 6 0 (stride_phase 6 i))
              (Device [] [1; 2; 3; 4; 5; 6]%Z []) =
  Err (LocalOutOfRange 6).
Proof.
  refine (proj1 (stride_loop_needs_power_of_two 6 1 3 0
                   (Device [] [1; 2; 3; 4; 5; 6]%Z []) _ _ _ _)).
  - reflexivity.
  - reflexivity.
  - lia.
  - reflexivity.
Defined.

(** ** The indices a launch reads *)

Lemma flat_map_flat_map {A B C} (f : B -> list C) (g : A -> list B) (l : list A) :
  flat_map f (flat_map g l) = flat_map (fun x => flat_map f (g x)) l.
Proof.
  induction l as [|x l IH]; [reflexivity|].
  cbn [flat_map]. now rewrite flat_map_app, IH.
Qed.

Lemma flat_map_seq_shift {A} (f : nat -> list A) a n :
  flat_map f (seq a n) = flat_map (fun l => f (a + l)) (seq 0 n).
Proof.
  induction n as [|n IH]; [reflexivity|].
  rewrite !seq_S, !flat_map_app, IH. reflexivity.
Qed.

Lemma flat_map_groups {A} (f : nat -> list A) G W :
  flat_map (fun w => flat_map (fun l => f (w * G + l)) (seq 0 G)) (seq 0 W) =
  flat_map f (seq 0 (W * G)).
Proof.
  induction W as [|W IH]; [reflexivity|].
  rewrite seq_S, flat_map_app, IH. cbn [Nat.add flat_map]. rewrite app_nil_r.
  replace (S W * G) with (W * G + G) by lia.
  now rewrite seq_app, flat_map_app, (flat_map_seq_shift f (0 + W * G)).
Qed.

Lemma load_index_load_events L g :
  flat_map load_index (load_events L g) =
  if 2 * g <? L then [2 * g; 2 * g + 1] else [].
Proof. unfold load_events. now destruct (2 * g <? L). Qed.

Lemma reads_of_lanes G L w :
  reads_of G L w =
  flat_map (fun l => flat_map load_index (load_events L (w * G + l))) (seq 0 G).
Proof.
  unfold reads_of, group_events.
  rewrite flat_map_app, flat_map_flat_map. cbn [flat_map load_index app].
  now rewrite app_nil_r.
Qed.

Lemma item_reads_prefix L n :
  Nat.even L = true ->
  flat_map (fun g => flat_map load_index (load_events L g)) (seq 0 n) =
  seq 0 (Nat.min (2 * n) L).
Proof.
  intros Heven. induction n as [|n IH]; [reflexivity|].
  rewrite seq_S, flat_map_app, IH. cbn [Nat.add flat_map].
  rewrite app_nil_r, load_index_load_events.
  destruct (2 * n <? L) eqn:Hlt.
  - apply Nat.ltb_lt in Hlt. pose proof (even_lt_succ L n Heven Hlt).
    rewrite Nat.min_l, Nat.min_l by lia.
    replace (2 * S n) with (2 * n + 2) by lia.
    rewrite seq_app. cbn [seq Nat.add]. do 2 f_equal. f_equal. lia.
  - apply Nat.ltb_ge in Hlt. rewrite app_nil_r.
    now rewrite Nat.min_r, Nat.min_r by lia.
Qed.

Lemma reads_of_in_order G L :
  1 <= G -> Nat.even L = true ->
  flat_map (reads_of G L) (in_order (work_group_count (2 * G) L)) = seq 0 L.
Proof.
  intros HG Heven. unfold in_order.
  rewrite (flat_map_ext _ _ (reads_of_lanes G L)).
  rewrite (flat_map_groups (fun g => flat_map load_index (load_events L g))).
  rewrite item_reads_prefix by exact Heven.
  pose proof (work_group_count_covers G L HG).
  f_equal. lia.
Qed.

Lemma writes_of_groups G L ws : flat_map (writes_of G L) ws = ws.
Proof.
  rewrite (flat_map_ext _ _ (writes_of_group G L)).
  induction ws as [|w ws IH]; [reflexivity|].
  cbn [flat_map app]. now rewrite IH.
Qed.

(** A launch over an even active length within the buffer finishes in
    whatever order its groups run, and its accesses are those of the
    groups in that order. *)
Lemma launch_any_order k L B S tr order :
  Nat.even L = true -> L <= length B -> length S = 2 ^ k ->
  (forall w, In w order -> w < work_group_count (2 * 2 ^ k) L) ->
  exists d',
    launch order (2 ^ k) L (Device B S tr) = Ok (tt, d') /\
    length (global_mem d') = length B /\
    trace d' = tr ++ flat_map (group_events (2 ^ k) L) order.
Proof.
  intros Heven HL HS Hord. unfold launch.
  destruct (for_each_inv
    (fun j d0 =>
       length (local_mem d0) = 2 ^ k /\ length (global_mem d0) = length B /\
       trace d0 = tr ++ flat_map (group_events (2 ^ k) L) (take j order))
    order (run_group (2 ^ k) L) (Device B S tr)) as (d' & Hrun & HI).
  - cbn [global_mem local_mem trace take flat_map]. rewrite app_nil_r.
    repeat split; assumption.
  - intros j w d0 Hj (Hloc & Hlen & Htr).
    assert (w < work_group_count (2 * 2 ^ k) L) as Hw.
    { apply Hord. apply list_elem_of_In. eapply list_elem_of_lookup_2. exact Hj. }
    destruct (run_group_even k L w d0) as (S' & Hgo & HS');
      [exact Heven|lia|exact Hloc|exact Hw|].
    eexists. split; [exact Hgo|]. cbn [global_mem local_mem trace].
    repeat split.
    + exact HS'.
    + now rewrite length_insert.
    + rewrite Htr, (take_S_r _ _ _ Hj), flat_map_app, <- app_assoc.
      cbn [flat_map]. now rewrite app_nil_r.
  - destruct HI as (_ & Hlen & Htr). rewrite take_ge in Htr by lia.
    exists d'. repeat split; assumption.
Qed.

(** X12. A launch over an even active length [L] within the buffer,
    with groups of [2^k] work-items run in any order, finishes, and the
    accesses it has made to the buffer load each of the indices
    [0 .. L-1] exactly once and nothing else, and store each of the
    indices [0 .. W-1] exactly once; in ascending order the loads come
    as [0, 1, ..., L-1]. *)
Theorem launch_reads_each_element_once
    (k L : nat) (sched : nat -> list nat) (B S : list Z)
    (Hsched : schedule_ok sched)
    (Heven : Nat.even L = true) (HL : L <= length B) (HS : length S = 2 ^ k) :
  exists d',
    launch (sched (work_group_count (2 * 2 ^ k) L)) (2 ^ k) L (Device B S []) =
    Ok (tt, d') /\
    Permutation (flat_map load_index (trace d')) (seq 0 L) /\
    Permutation (flat_map store_index (trace d'))
                (seq 0 (work_group_count (2 * 2 ^ k) L)) /\
    (sched (work_group_count (2 * 2 ^ k) L) =
     in_order (work_group_count (2 * 2 ^ k) L) ->
     flat_map load_index (trace d') = seq 0 L).
Proof.
  set (W := work_group_count (2 * 2 ^ k) L).
  assert (1 <= 2 ^ k) as HG by (apply Nat.neq_0_lt_0, Nat.pow_nonzero; lia).
  destruct (launch_any_order k L B S [] (sched W) Heven HL HS)
    as (d' & Hrun & _ & Htr).
  { intros w Hw. apply (Permutation_in _ (Hsched W)) in Hw.
    apply in_seq in Hw. fold W. lia. }
  exists d'. split; [exact Hrun|].
  cbn [app] in Htr. rewrite Htr, !flat_map_flat_map.
  fold (reads_of (2 ^ k) L). fold (writes_of (2 ^ k) L).
  split; [|split].
  - rewrite <- (reads_of_in_order (2 ^ k) L HG Heven). fold W.
    apply Permutation_flat_map, Hsched.
  - rewrite writes_of_groups. apply Hsched.
  - intros ->. now apply reads_of_in_order.
Qed.

Lemma launch_reads_each_element_once_witness :
  exists d',
    launch (in_order (work_group_count (2 * 2 ^ 1) 8)) (2 ^ 1) 8
           (Device [1; 2; 3; 4; 5; 6; 7; 8]%Z [0; 0]%Z []) = Ok (tt, d') /\
    Permutation (flat_map load_index (trace d')) (seq 0 8) /\
    Permutation (flat_map store_index (trace d'))
                (seq 0 (work_group_count (2 * 2 ^ 1) 8)) /\
    (in_order (work_group_count (2 * 2 ^ 1) 8) =
     in_order (work_group_count (2 * 2 ^ 1) 8) ->
     flat_map load_index (trace d') = seq 0 8).
Proof.
  refine (launch_reads_each_element_once 1 8 in_order
            [1; 2; 3; 4; 5; 6; 7; 8]%Z [0; 0]%Z _ _ _ _).
  - exact in_order_ok.
  - reflexivity.
  - simpl. lia.
  - reflexivity.
Defined.

(** X13. The value a group writes back depends on its own slice of the
    buffer only: two runs of group [w] over an even active length, on
    buffers that agree on the indices [[2wG, 2(w+1)G)], both finish and
    leave the same value at index [w]. *)
Theorem group_result_depends_on_its_slice_only
    (k L w : nat) (d1 d2 : device)
    (Heven : Nat.even L = true)
    (HL1 : L <= length (global_mem d1)) (HL2 : L <= length (global_mem d2))
    (Hloc1 : length (local_mem d1) = 2 ^ k) (Hloc2 : length (local_mem d2) = 2 ^ k)
    (Hw : w < work_group_count (2 * 2 ^ k) L)
    (Hagree : forall p, 2 * w * 2 ^ k <= p < 2 * (w + 1) * 2 ^ k ->
                        global_mem d1 !! p = global_mem d2 !! p) :
  exists v d1' d2',
    run_group (2 ^ k) L w d1 = Ok (tt, d1') /\
    run_group (2 ^ k) L w d2 = Ok (tt, d2') /\
    global_mem d1' !! w = Some v /\ global_mem d2' !! w = Some v.
Proof.
  destruct (run_group_even k L w d1 Heven HL1 Hloc1 Hw) as (S1 & Hrun1 & _).
  destruct (run_group_even k L w d2 Heven HL2 Hloc2 Hw) as (S2 & Hrun2 & _).
  assert (1 <= 2 ^ k) as HG by (apply Nat.neq_0_lt_0, Nat.pow_nonzero; lia).
  pose proof (group_starts_inside _ L w HG Hw) as Hstart.
  exists (group_sum (2 ^ k) (global_mem d1) L w). do 2 eexists.
  split; [exact Hrun1|]. split; [exact Hrun2|].
  cbn [global_mem]. split.
  - apply list_lookup_insert_eq. nia.
  - assert (group_sum (2 ^ k) (global_mem d1) L w =
            group_sum (2 ^ k) (global_mem d2) L w) as ->.
    { unfold group_sum. do 2 f_equal. apply map_ext_in. intros l Hl.
      apply in_seq in Hl. apply loaded_ext; apply Hagree; nia. }
    apply list_lookup_insert_eq. nia.
Qed.

Lemma group_result_depends_on_its_slice_only_witness :
  exists v d1' d2',
    run_group (2 ^ 1) 8 1 (Device [1; 2; 3; 4; 5; 6; 7; 8]%Z [0; 0]%Z []) =
    Ok (tt, d1') /\
    run_group (2 ^ 1) 8 1 (Device [9; 9; 9; 9; 5; 6; 7; 8]%Z [0; 0]%Z []) =
    Ok (tt, d2') /\
    global_mem d1' !! 1 = Some v /\ global_mem d2' !! 1 = Some v.
Proof.
  refine (group_result_depends_on_its_slice_only 1 8 1
            (Device [1; 2; 3; 4; 5; 6; 7; 8]%Z [0; 0]%Z [])
            (Device [9; 9; 9; 9; 5; 6; 7; 8]%Z [0; 0]%Z []) _ _ _ _ _ _ _).
  - reflexivity.
  - simpl. lia.
  - simpl. lia.
  - reflexivity.
  - reflexivity.
  - vm_compute. lia.
  - intros p Hp. cbn [global_mem].
    do 4 (destruct p as [|p]; [simpl in Hp; lia|]).
    reflexivity.
Defined.

(** X14. The one launch is sized to the array: its global range is a
    whole number of groups of 512 work-items, it has a work-item for
    every pair of elements, and fewer than one group's worth of pairs
    more. *)
Theorem launch_size_covers_the_array (sched : nat -> list nat) (arr : list Z) :
  exists n,
    submitted (fst (reduce_with sched arr)) = [(n, work_group_size)] /\
    n mod work_group_size = 0 /\
    length arr <= 2 * n /\
    2 * n < length arr + 2 * work_group_size.
Proof.
  exists (work_group_size * work_group_count double_work_group_size (length arr)).
  split; [reflexivity|]. split.
  - rewrite Nat.mul_comm. apply Nat.Div0.mod_mul.
  - change double_work_group_size with (2 * work_group_size).
    pose proof (work_group_count_covers work_group_size (length arr)) as Hc.
    unfold work_group_count in *.
    pose proof (Nat.Div0.mul_div_le (length arr + 2 * work_group_size - 1)
                  (2 * work_group_size)) as Hle.
    unfold work_group_size in *. lia.
Qed.
